(** * ja3: fingerprint controller and HTTP/2 fingerprint codec

    A shallow embedding of the Go package [ja3] (the adaptive error
    registry, the spec pruning, the ALPN adjustment, the retry loop, the
    HTTP/2 fingerprint codec and the spec builder), followed by the
    properties proved about it.

    Conventions.
    - Go's fixed-width integers are [Z] with the conversions written out
      ([to_uint16], [to_uint32]).
    - Go strings are [string] (sequences of bytes).
    - [sync.Map] keyed by host name is a [gmap string _]; [kinds.Set[uint16]]
      is a [gset Z].
    - TLS extensions live behind pointers: a spec holds a list of addresses
      into a store of extension objects, and the functions that mutate an
      extension in place update that store. *)

From Stdlib Require Import ZArith Ascii String List Lia.
From stdpp Require Import base option list gmap strings.

Local Open Scope string_scope.
Local Open Scope Z_scope.

#[local] Set Warnings "-clear-no-such-hyp".

(* ===================================================================== *)
(** * Part I. Definitions                                                 *)
(* ===================================================================== *)

(** ** Fixed-width integers *)

Definition to_uint16 (i : Z) : Z := i mod 65536.
Definition to_uint32 (i : Z) : Z := i mod 4294967296.
Definition is_uint16 (i : Z) : Prop := 0 <= i < 65536.
Definition is_uint32 (i : Z) : Prop := 0 <= i < 4294967296.

(** Range of Go's [int] on a 64-bit platform. *)
Definition minInt : Z := - 9223372036854775808.
Definition maxInt : Z := 9223372036854775807.

(** ** The pieces of [strings], [strconv] and [fmt] the package uses *)

Definition byte_code (c : ascii) : Z := Z.of_N (N_of_ascii c).

(** ['0' <= c <= '9'], giving the digit's value. *)
Definition digit_val (c : ascii) : option Z :=
  let n := byte_code c in
  if (48 <=? n) && (n <=? 57) then Some (n - 48) else None.

Definition digit_char (d : Z) : ascii := ascii_of_N (Z.to_N (48 + d)).

Definition is_digit (c : ascii) : bool := bool_decide (is_Some (digit_val c)).

(** Every byte of the string satisfies [P]. *)
Definition bytes_all (P : ascii -> bool) (s : string) : bool :=
  forallb P (list_ascii_of_string s).

Definition differs (sep : ascii) (c : ascii) : bool := negb (Ascii.eqb c sep).

(** [strings.Split(s, sep)] for a one-byte separator, which is how every
    call of the package uses it ("|", "," and ":").  The result is never
    empty: [Split "" sep = [""]]. *)
Fixpoint Split (s : string) (sep : ascii) : list string :=
  match s with
  | EmptyString => [EmptyString]
  | String c rest =>
      if Ascii.eqb c sep then EmptyString :: Split rest sep
      else match Split rest sep with
           | tok :: toks => String c tok :: toks
           | [] => [String c EmptyString]
           end
  end.

(** [strings.Join(elems, sep)]. *)
Fixpoint Join (elems : list string) (sep : string) : string :=
  match elems with
  | [] => EmptyString
  | x :: rest =>
      match rest with
      | [] => x
      | _ :: _ => x ++ sep ++ Join rest sep
      end
  end.

(** The digit loop of [strconv.Atoi]: base 10, most significant first. *)
Fixpoint parse_digits (s : string) (acc : Z) : option Z :=
  match s with
  | EmptyString => Some acc
  | String c rest =>
      match digit_val c with
      | Some d => parse_digits rest (10 * acc + d)
      | None => None
      end
  end.

(** The sign handling of [strconv.Atoi]: one leading '+' or '-'. *)
Definition split_sign (s : string) : bool * string :=
  match s with
  | EmptyString => (false, s)
  | String c r =>
      if Ascii.eqb c "+" then (false, r)
      else if Ascii.eqb c "-" then (true, r)
      else (false, s)
  end.

(** [strconv.Atoi]: an optional sign, at least one decimal digit, and a
    value that fits [int]; [None] stands for the returned [*NumError]. *)
Definition Atoi (s : string) : option Z :=
  let '(neg, body) := split_sign s in
  match body with
  | EmptyString => None
  | String _ _ =>
      match parse_digits body 0 with
      | Some m =>
          let v := if neg then - m else m in
          if (minInt <=? v) && (v <=? maxInt) then Some v else None
      | None => None
      end
  end.

(** The "%d" verb of [fmt] on an unsigned value: decimal digits, no sign,
    no leading zero.  The loop produces the least significant digit first
    and prepends; a 64-bit value has at most 20 digits, the values printed
    here are [uint16] and [uint32]. *)
Fixpoint itoa_loop (fuel : nat) (n : Z) (acc : string) : string :=
  match fuel with
  | O => acc
  | S fuel' =>
      let acc' := String (digit_char (n mod 10)) acc in
      if n / 10 =? 0 then acc' else itoa_loop fuel' (n / 10) acc'
  end.

Definition Itoa (n : Z) : string := itoa_loop 20 n EmptyString.

(** ASCII case folding.  [strings.ToLower] agrees with it on ASCII input;
    the codec below takes the folding function as an argument, and this
    one instantiates it. *)
Definition lower_byte (c : ascii) : ascii :=
  let n := byte_code c in
  if (65 <=? n) && (n <=? 90) then ascii_of_N (Z.to_N (n + 32)) else c.

Fixpoint ToLowerASCII (s : string) : string :=
  match s with
  | EmptyString => EmptyString
  | String c rest => String (lower_byte c) (ToLowerASCII rest)
  end.

(** [encoding/hex]. *)
Definition fromHexChar (c : ascii) : option Z :=
  let n := byte_code c in
  if (48 <=? n) && (n <=? 57) then Some (n - 48)
  else if (97 <=? n) && (n <=? 102) then Some (n - 97 + 10)
  else if (65 <=? n) && (n <=? 70) then Some (n - 65 + 10)
  else None.

(** The two errors of [hex.DecodeString]. *)
Inductive hex_error :=
  | ErrLength
  | InvalidByteError (c : ascii).

(** [hex.DecodeString]: pairs are decoded left to right and the first bad
    byte is reported; an odd length is reported once the pairs are done. *)
Fixpoint hex_DecodeString (s : string) : list Z + hex_error :=
  match s with
  | EmptyString => inl []
  | String a EmptyString =>
      match fromHexChar a with
      | None => inr (InvalidByteError a)
      | Some _ => inr ErrLength
      end
  | String a (String b rest) =>
      match fromHexChar a with
      | None => inr (InvalidByteError a)
      | Some x =>
          match fromHexChar b with
          | None => inr (InvalidByteError b)
          | Some y =>
              match hex_DecodeString rest with
              | inl bytes => inl (x * 16 + y :: bytes)
              | inr e => inr e
              end
          end
      end
  end.

(** ** HTTP/2 fingerprint codec *)

Module H2.

Record Setting := { Id : Z (* Http2SettingID, uint16 *); Val : Z (* uint32 *) }.

Record Priority := {
  StreamDep : Z (* uint32 *);
  Exclusive : bool;
  Weight : Z (* uint8 *)
}.

Record H2Spec := {
  InitialSetting : list Setting;
  ConnFlow : Z (* uint32 *);
  OrderHeaders : list string;
  Priority_ : Priority
}.

Definition Priority_zero : Priority :=
  {| StreamDep := 0; Exclusive := false; Weight := 0 |}.

(** The zero value [H2Spec{}]. *)
Definition H2Spec_zero : H2Spec :=
  {| InitialSetting := []; ConnFlow := 0; OrderHeaders := [];
     Priority_ := Priority_zero |}.

Inductive error :=
  | ErrSpecFormat          (* errors.New("h2 spec format error") *)
  | ErrSetting             (* errors.New("h2 setting error") *)
  | ErrAtoi (input : string). (* the *NumError of strconv.Atoi *)

Inductive result (A : Type) :=
  | Ok (a : A)
  | Err (e : error).
Arguments Ok {A} a.
Arguments Err {A} e.

Definition failed {A} (r : result A) : bool :=
  match r with
  | Ok _ => false
  | Err _ => true
  end.

(** [fmt.Sprintf("%d:%d", setting.Id, setting.Val)] *)
Definition setting_token (s : Setting) : string :=
  Itoa (Id s) ++ ":" ++ Itoa (Val s).

(** The [switch head] of [Fp], on the lower-cased name. *)
Definition head_letter (head : string) : option string :=
  if String.eqb head ":method" then Some "m"
  else if String.eqb head ":authority" then Some "a"
  else if String.eqb head ":scheme" then Some "s"
  else if String.eqb head ":path" then Some "p"
  else None.

Fixpoint Fp_heads (ToLower : string -> string) (hs : list string)
    (heads : list string) : list string :=
  match hs with
  | [] => heads
  | head :: rest =>
      match head_letter (ToLower head) with
      | Some l => Fp_heads ToLower rest (heads ++ [l])
      | None => Fp_heads ToLower rest heads
      end
  end.

(** [H2Spec.Fp].  [ToLower] stands for [strings.ToLower], which folds the
    case of all of Unicode; the encoder is given over the folding function. *)
Definition Fp (ToLower : string -> string) (obj : H2Spec) : string :=
  Join [ Join (map setting_token (InitialSetting obj)) ",";
         Itoa (ConnFlow obj);
         "0";
         Join (Fp_heads ToLower (OrderHeaders obj) []) "," ] "|".

(** The [switch hkey] of [CreateH2SpecWithStr]. *)
Definition letter_head (hkey : string) : option string :=
  if String.eqb hkey "m" then Some ":method"
  else if String.eqb hkey "a" then Some ":authority"
  else if String.eqb hkey "s" then Some ":scheme"
  else if String.eqb hkey "p" then Some ":path"
  else None.

(** The settings loop of [CreateH2SpecWithStr]; it returns at the first
    token that fails. *)
Fixpoint parse_settings (tokens : list string) (acc : list Setting)
    : result (list Setting) :=
  match tokens with
  | [] => Ok acc
  | setting :: rest =>
      match Split setting ":" with
      | [k; v] =>
          match Atoi k with
          | None => Err (ErrAtoi k)
          | Some ttKey =>
              match Atoi v with
              | None => Err (ErrAtoi v)
              | Some ttVal =>
                  parse_settings rest
                    (acc ++ [{| Id := to_uint16 ttKey; Val := to_uint32 ttVal |}])
              end
          end
      | _ => Err ErrSetting
      end
  end.

Fixpoint parse_heads (hkeys : list string) (acc : list string) : list string :=
  match hkeys with
  | [] => acc
  | hkey :: rest =>
      match letter_head hkey with
      | Some h => parse_heads rest (acc ++ [h])
      | None => parse_heads rest acc
      end
  end.

(** [CreateH2SpecWithStr] *)
Definition CreateH2SpecWithStr (h2ja3SpecStr : string) : result H2Spec :=
  match Split h2ja3SpecStr "|" with
  | [t0; t1; _; t3] =>
      match parse_settings (Split t0 ",") [] with
      | Err e => Err e
      | Ok settings =>
          match Atoi t1 with
          | None => Err (ErrAtoi t1)
          | Some connFlow =>
              Ok {| InitialSetting := settings;
                    ConnFlow := to_uint32 connFlow;
                    OrderHeaders := parse_heads (Split t3 ",") [];
                    Priority_ := Priority_zero |}
          end
      end
  | _ => Err ErrSpecFormat
  end.

(** [DefaultH2Spec], with the header list already canonicalised. *)
Definition DefaultH2Spec (OrderHeaders : list string) : H2Spec :=
  {| InitialSetting :=
       [ {| Id := 1; Val := 65536 |}; {| Id := 2; Val := 0 |};
         {| Id := 3; Val := 1000 |}; {| Id := 4; Val := 6291456 |};
         {| Id := 6; Val := 262144 |} ];
     ConnFlow := 15663105;
     OrderHeaders := OrderHeaders;
     Priority_ := {| StreamDep := 0; Exclusive := true; Weight := 255 |} |}.

(** Type invariant of [H2Spec]: every field fits its Go type. *)
Definition wf_Setting (s : Setting) : Prop := is_uint16 (Id s) /\ is_uint32 (Val s).
Definition wf_H2Spec (p : H2Spec) : Prop :=
  Forall wf_Setting (InitialSetting p) /\ is_uint32 (ConnFlow p).

(** What the fingerprint keeps of a header list: the four pseudo-headers,
    in order, in their canonical spelling. *)
Definition pseudo_name (ToLower : string -> string) (head : string) : option string :=
  let l := ToLower head in
  if String.eqb l ":method" || String.eqb l ":authority"
     || String.eqb l ":scheme" || String.eqb l ":path"
  then Some l else None.

Definition pseudo_headers (ToLower : string -> string) (hs : list string) : list string :=
  omap (pseudo_name ToLower) hs.

(** The spec's word for an accepted component, "numeric": an optional
    sign and one or more decimal digits. *)
Definition all_digits (s : string) : bool := bytes_all is_digit s.

Definition numeric (s : string) : bool :=
  let '(neg, body) := split_sign s in
  negb (String.eqb body "") && all_digits body.

(** The number a numeric string denotes. *)
Definition digits_from (acc : Z) (s : string) : Z :=
  fold_left (fun acc c => 10 * acc + default 0 (digit_val c)) (list_ascii_of_string s) acc.

Definition numeric_value (s : string) : Z :=
  let '(neg, body) := split_sign s in
  if neg then - digits_from 0 body else digits_from 0 body.

(** Numeric, with a value in the range of Go's [int]. *)
Definition int_numeric (s : string) : bool :=
  numeric s && (minInt <=? numeric_value s) && (numeric_value s <=? maxInt).

(** A settings token of the shape [id:value] with two numeric parts. *)
Definition numeric_setting (tok : string) : bool :=
  match Split tok ":" with
  | [k; v] => numeric k && numeric v
  | _ => false
  end.

(** The same, both parts within [int]. *)
Definition int_setting (tok : string) : bool :=
  match Split tok ":" with
  | [k; v] => int_numeric k && int_numeric v
  | _ => false
  end.

End H2.

(** ** TLS handshake parameters, the error registry and the controller *)

Module TLS.

(** An error value, identified with the text [err.Error()] returns. *)
Definition error := string.

(** [utls.KeyShare] *)
Record KeyShare := { Group : Z (* CurveID, uint16 *); Data : list Z }.

(** The extension kinds the package inspects; every other kind of
    [utls.TLSExtension] is carried along untouched. *)
Inductive TLSExtension :=
  | KeyShareExtension (KeyShares : list KeyShare)
  | SupportedCurvesExtension (Curves : list Z)
  | ALPNExtension (AlpnProtocols : list string)
  | OtherExtension (kind : Z) (body : list Z).

(** Extension objects are reached through pointers: an address is an index
    into the store. *)
Abbreviation loc := nat.
Abbreviation store := (list TLSExtension).

(** [utls.ClientHelloSpec] *)
Record ClientHelloSpec := {
  CipherSuites : list Z;
  CompressionMethods : list Z;
  Extensions : list loc;
  TLSVersMin : Z;
  TLSVersMax : Z;
  GetSessionID : option (list Z -> list Z)
}.

Definition ClientHelloSpec_zero : ClientHelloSpec :=
  {| CipherSuites := []; CompressionMethods := []; Extensions := [];
     TLSVersMin := 0; TLSVersMax := 0; GetSessionID := None |}.

(** [Client.specErrData]: host name to the set of rejected group ids. *)
Abbreviation registry := (gmap string (gset Z)).

(** [NewClient] *)
Definition NewClient : registry := ∅.

(** The ErrorMemory of a destination; empty when there is no record. *)
Definition rejected (reg : registry) (key : string) : gset Z :=
  default ∅ (reg !! key).

(** [Client.setSpecErrWithKeyShareExtension] *)
Definition setSpecErrWithKeyShareExtension (reg : registry) (key : string)
    (value : Z) : bool * registry :=
  match reg !! key with
  | Some specErr =>
      if bool_decide (value ∈ specErr) then (false, reg)
      else (true, <[key := {[value]} ∪ specErr]> reg)
  | None => (true, <[key := {[value]}]> reg)
  end.

(** *** The pattern of [setSpecErrWithError]

    [re.Search] with the pattern
    [unsupported Curve in KeyShareExtension: CurveID\((\d+)\)]: the leftmost
    place where the literal text is followed by one or more digits and a
    closing parenthesis; the result is group 1, the digits. *)
Definition curve_error_prefix : string :=
  "unsupported Curve in KeyShareExtension: CurveID(".

Fixpoint strip_prefix (p s : string) : option string :=
  match p with
  | EmptyString => Some s
  | String a p' =>
      match s with
      | String b s' => if Ascii.eqb a b then strip_prefix p' s' else None
      | EmptyString => None
      end
  end.

Fixpoint span_digits (s : string) : string * string :=
  match s with
  | EmptyString => (EmptyString, EmptyString)
  | String c r =>
      match digit_val c with
      | Some _ => let '(ds, rest) := span_digits r in (String c ds, rest)
      | None => (EmptyString, s)
      end
  end.

Definition match_curve_error (s : string) : option string :=
  match strip_prefix curve_error_prefix s with
  | Some rest =>
      let '(ds, rest') := span_digits rest in
      match ds, rest' with
      | String _ _, String ")"%char _ => Some ds
      | _, _ => None
      end
  | None => None
  end.

Fixpoint re_Search (text : string) : option string :=
  match match_curve_error text with
  | Some g => Some g
  | None =>
      match text with
      | EmptyString => None
      | String _ rest => re_Search rest
      end
  end.

(** [Client.setSpecErrWithError] *)
Definition setSpecErrWithError (reg : registry) (key : string) (err : error)
    : bool * registry :=
  match re_Search err with
  | Some group1 =>
      match Atoi group1 with
      | Some i =>
          let '(c, reg') := setSpecErrWithKeyShareExtension reg key (to_uint16 i) in
          if c then (true, reg') else (false, reg')
      | None => (false, reg)
      end
  | None => (false, reg)
  end.

(** What [setSpecErrWithError] extracts from an error text: the group id
    it will record, if the text has the recognised shape and its number is
    an [int]. *)
Definition classify (err : error) : option Z :=
  match re_Search err with
  | Some group1 => to_uint16 <$> Atoi group1
  | None => None
  end.

(** *** [Client.changeSpec] *)

(** The inner loop over [extData.KeyShares]. *)
Fixpoint prune_KeyShares (specErr : gset Z) (ks : list KeyShare)
    (change : bool) (keyShares : list KeyShare) : bool * list KeyShare :=
  match ks with
  | [] => (change, keyShares)
  | keyShare :: rest =>
      if bool_decide (to_uint16 (Group keyShare) ∈ specErr)
      then prune_KeyShares specErr rest change keyShares
      else prune_KeyShares specErr rest true (keyShares ++ [keyShare])
  end.

(** The inner loop over [extData.Curves]. *)
Fixpoint prune_Curves (specErr : gset Z) (cs : list Z)
    (change : bool) (keyShares : list Z) : bool * list Z :=
  match cs with
  | [] => (change, keyShares)
  | keyShare :: rest =>
      if bool_decide (to_uint16 keyShare ∈ specErr)
      then prune_Curves specErr rest change keyShares
      else prune_Curves specErr rest true (keyShares ++ [keyShare])
  end.

(** The loop over [spec.Extensions]; an address with no object behind it
    (a nil interface) matches no case. *)
Fixpoint changeSpec_loop (specErr : gset Z) (exts : list loc)
    (change : bool) (h : store) : bool * store :=
  match exts with
  | [] => (change, h)
  | ext :: rest =>
      match h !! ext with
      | Some (KeyShareExtension ks) =>
          if bool_decide (0 < size specErr)%nat then
            let '(change', keyShares) := prune_KeyShares specErr ks change [] in
            changeSpec_loop specErr rest change' (<[ext := KeyShareExtension keyShares]> h)
          else changeSpec_loop specErr rest change h
      | Some (SupportedCurvesExtension cs) =>
          if bool_decide (0 < size specErr)%nat then
            let '(change', keyShares) := prune_Curves specErr cs change [] in
            changeSpec_loop specErr rest change' (<[ext := SupportedCurvesExtension keyShares]> h)
          else changeSpec_loop specErr rest change h
      | _ => changeSpec_loop specErr rest change h
      end
  end.

Definition changeSpec (reg : registry) (key : string) (spec : ClientHelloSpec)
    (h : store) : bool * store :=
  match reg !! key with
  | None => (false, h)
  | Some specErr => changeSpec_loop specErr (Extensions spec) false h
  end.

(** *** [createSpecWithSpec] *)

(** [slices.Index]: the first index of [v], or -1. *)
Fixpoint slices_Index (s : list string) (v : string) : Z :=
  match s with
  | [] => -1
  | x :: rest =>
      if String.eqb x v then 0
      else let i := slices_Index rest v in if i =? -1 then -1 else i + 1
  end.

(** [slices.Delete(s, i, j)] for [0 <= i <= j <= len(s)]. *)
Definition slices_Delete (s : list string) (i j : Z) : list string :=
  take (Z.to_nat i) s ++ drop (Z.to_nat j) s.

Definition slices_Contains (s : list string) (v : string) : bool :=
  negb (slices_Index s v =? -1).

(** The body of the HTTP/1.1-only branch for the ALPN extension found. *)
Definition http1_protocols (protos : list string) : list string :=
  let i := slices_Index protos "h2" in
  let protos1 := if negb (i =? -1) then slices_Delete protos i (i + 1) else protos in
  if negb (slices_Contains protos1 "http/1.1") then "http/1.1" :: protos1 else protos1.

(** The [for ... break] loops: only the first ALPN extension is rewritten. *)
Fixpoint rewrite_first_ALPN (f : list string -> list string) (exts : list loc)
    (h : store) : store :=
  match exts with
  | [] => h
  | ext :: rest =>
      match h !! ext with
      | Some (ALPNExtension protos) => <[ext := ALPNExtension (f protos)]> h
      | _ => rewrite_first_ALPN f rest h
      end
  end.

Definition createSpecWithSpec (NextProtoH3 : string) (utlsSpec : ClientHelloSpec)
    (h2 h3 : bool) (h : store) : ClientHelloSpec * option error * store :=
  if h3 then
    (utlsSpec, None, rewrite_first_ALPN (fun _ => [NextProtoH3]) (Extensions utlsSpec) h)
  else if negb h2 then
    (utlsSpec, None, rewrite_first_ALPN http1_protocols (Extensions utlsSpec) h)
  else (utlsSpec, None, h).

(** The first ALPN extension of a spec, as [createSpecWithSpec] finds it. *)
Fixpoint first_ALPN (exts : list loc) (h : store) : option (loc * list string) :=
  match exts with
  | [] => None
  | ext :: rest =>
      match h !! ext with
      | Some (ALPNExtension protos) => Some (ext, protos)
      | _ => first_ALPN rest h
      end
  end.

(** The HTTP/1.1-only rewriting in plain terms: drop the first "h2", then
    put "http/1.1" in front unless the list already has it somewhere. *)
Fixpoint remove_first (v : string) (l : list string) : list string :=
  match l with
  | [] => []
  | x :: rest => if String.eqb x v then rest else x :: remove_first v rest
  end.

Definition http1_only (protos : list string) : list string :=
  let p := remove_first "h2" protos in
  if bool_decide ("http/1.1" ∈ p) then p else "http/1.1" :: p.

(** Rewriting the protocol list of the first ALPN extension, if any. *)
Definition with_first_ALPN (f : list string -> list string) (exts : list loc)
    (h : store) : store :=
  match first_ALPN exts h with
  | Some (ext, protos) => <[ext := ALPNExtension (f protos)]> h
  | None => h
  end.

(** *** [Client.Client]: the retry loop

    The handshake engine ([utls.UConn]) is outside the package: it is a
    state of an arbitrary type with two operations.  [ApplyPreset] receives
    the address of [uspec] and the extension objects, and may change both.
    [w_attempts] counts the calls of [ApplyPreset]. *)
Section Controller.
Context {Engine : Type}.
Variable ApplyPreset :
  Engine -> ClientHelloSpec -> store -> Engine * ClientHelloSpec * store * option error.
Variable HandshakeContext : Engine -> Engine * option error.
Variable NextProtoH3 : string.

Record world := World {
  w_registry : registry;
  w_store : store;
  w_engine : Engine;
  w_attempts : nat
}.

Inductive loop_exit :=
  | Break
  | Return (err : error).

Fixpoint Client_loop (fuel : nat) (serverName : string)
    (utlsSpec uspec : ClientHelloSpec) (w : world) : option (loop_exit * world) :=
  match fuel with
  | O => None
  | S fuel' =>
      let '(eng, uspec', h, r) := ApplyPreset (w_engine w) uspec (w_store w) in
      let n := S (w_attempts w) in
      match r with
      | None => Some (Break, World (w_registry w) h eng n)
      | Some err =>
          let '(c1, reg) := setSpecErrWithError (w_registry w) serverName err in
          if negb c1 then Some (Return err, World reg h eng n)
          else
            let '(c2, h') := changeSpec reg serverName utlsSpec h in
            if negb c2 then Some (Return err, World reg h' eng n)
            else Client_loop fuel' serverName utlsSpec uspec' (World reg h' eng n)
      end
  end.

(** The result is [(utlsConn, err)]: [None] for a nil connection. *)
Definition Client (fuel : nat) (ja3Spec : ClientHelloSpec) (h2 : bool)
    (serverName : string) (w : world) : option (option Engine * option error * world) :=
  let '(utlsSpec, err0, h0) := createSpecWithSpec NextProtoH3 ja3Spec h2 false (w_store w) in
  match err0 with
  | Some e => Some (None, Some e, World (w_registry w) h0 (w_engine w) (w_attempts w))
  | None =>
      let '(_, h1) := changeSpec (w_registry w) serverName utlsSpec h0 in
      match Client_loop fuel serverName utlsSpec utlsSpec
              (World (w_registry w) h1 (w_engine w) (w_attempts w)) with
      | None => None
      | Some (Return err, w') => Some (None, Some err, w')
      | Some (Break, w') =>
          let '(eng, err) := HandshakeContext (w_engine w') in
          Some (Some eng, err, World (w_registry w') (w_store w') eng (w_attempts w'))
      end
  end.
End Controller.

(** The store as the first [ApplyPreset] sees it (lines 120-125: the ALPN
    adjustment, then the memory of the destination applied once). *)
Definition prepared_store (NextProtoH3 : string) (reg : registry)
    (ja3Spec : ClientHelloSpec) (h2 : bool) (serverName : string) (h : store) : store :=
  snd (changeSpec reg serverName ja3Spec
         (snd (createSpecWithSpec NextProtoH3 ja3Spec h2 false h))).

(** Fuel that the retry loop never exhausts: one attempt per group id,
    and one more. *)
Definition enough_fuel : nat := Z.to_nat 65537.

(** The methods of [Client] as operations on the registry and the store. *)
Inductive method_call :=
  | CallRecordGroup (key : string) (value : Z)
  | CallRecordError (key : string) (err : error)
  | CallChangeSpec (key : string) (spec : ClientHelloSpec).

Definition call (c : method_call) (st : registry * store) : registry * store :=
  match c with
  | CallRecordGroup key value =>
      (snd (setSpecErrWithKeyShareExtension (fst st) key value), snd st)
  | CallRecordError key err => (snd (setSpecErrWithError (fst st) key err), snd st)
  | CallChangeSpec key spec => (fst st, snd (changeSpec (fst st) key spec (snd st)))
  end.

Definition calls (cs : list method_call) (st : registry * store) : registry * store :=
  fold_left (fun s c => call c s) cs st.

(** Invariants of the registry: a record is created with one group and
    never loses one, and every group stored is a [uint16]. *)
Definition records_nonempty (reg : registry) : Prop :=
  forall key specErr, reg !! key = Some specErr -> specErr <> ∅.

Definition records_uint16 (reg : registry) : Prop :=
  forall key specErr g, reg !! key = Some specErr -> g ∈ specErr -> is_uint16 g.

(** The pruning of one extension, as a function of the rejected set. *)
Definition keeps (M : gset Z) (g : Z) : bool := bool_decide (to_uint16 g ∉ M).

Definition prune_ext (M : gset Z) (e : TLSExtension) : TLSExtension :=
  match e with
  | KeyShareExtension ks => KeyShareExtension (List.filter (fun k => keeps M (Group k)) ks)
  | SupportedCurvesExtension cs => SupportedCurvesExtension (List.filter (keeps M) cs)
  | other => other
  end.

(** Some key-share or curve entry of the extension is not rejected. *)
Definition has_survivor (M : gset Z) (e : TLSExtension) : bool :=
  match e with
  | KeyShareExtension ks => existsb (fun k => keeps M (Group k)) ks
  | SupportedCurvesExtension cs => existsb (keeps M) cs
  | _ => false
  end.

Definition survivor_at (M : gset Z) (h : store) (ext : loc) : bool :=
  from_option (has_survivor M) false (h !! ext).

Definition spec_has_survivor (M : gset Z) (spec : ClientHelloSpec) (h : store) : bool :=
  existsb (survivor_at M h) (Extensions spec).

(** The same as a proposition: some key-share entry or supported-curve
    entry of the spec has a group id that is not in [M]. *)
Definition entry_outside (M : gset Z) (spec : ClientHelloSpec) (h : store) : Prop :=
  exists ext e, ext ∈ Extensions spec /\ h !! ext = Some e /\
    ((exists ks k, e = KeyShareExtension ks /\ k ∈ ks /\ to_uint16 (Group k) ∉ M)
     \/ (exists cs g, e = SupportedCurvesExtension cs /\ g ∈ cs /\ to_uint16 g ∉ M)).

(** The effect of one iteration of the outer loop of [changeSpec] on the
    store, when the memory is not empty. *)
Definition visit (M : gset Z) (h : store) (ext : loc) : store :=
  match h !! ext with
  | Some e => <[ext := prune_ext M e]> h
  | None => h
  end.

End TLS.

(** ** The spec builder *)

Module Builder.
Import TLS.

Inductive build_error :=
  | ErrDecode (e : error)      (* returned by decodeClientHello *)
  | ErrPreset (e : error)      (* returned by utls.UTLSIdToSpec *)
  | ErrHex (e : hex_error)     (* returned by hex.DecodeString *)
  | ErrClientHelloType.        (* errors.New("clienthello type error") *)

(** The parser [decodeClientHello], its result type and the preset table
    [utls.UTLSIdToSpec] are outside this file: the builder is given over
    any of them.  [Sum256] is [sha256.Sum256]. *)
Section Builder.
Variable ClientHelloID : Type.
Variable Extension : Type.

Record ClientHello := {
  ch_CipherSuites : list Z;
  ch_CompressionMethods : list Z;
  ch_Extensions : list Extension
}.

Variable decodeClientHello : list Z -> ClientHello * option error.
Variable utlsExt : Extension -> TLSExtension.
Variable UTLSIdToSpec : ClientHelloID -> store -> ClientHelloSpec * option error * store.
Variable Sum256 : list Z -> list Z.

(** The dynamic type of the [any] argument. *)
Inductive clienthello_arg :=
  | ArgBytes (value : list Z)
  | ArgClientHelloID (value : ClientHelloID)
  | ArgString (value : string)
  | ArgOther.

(** Lines 366-373: the extension objects are allocated at the end of the
    store, in order. *)
Definition spec_of_ClientHello (clientHelloInfo : ClientHello) (h : store)
    : ClientHelloSpec * option build_error * store :=
  let objs := map utlsExt (ch_Extensions clientHelloInfo) in
  ({| CipherSuites := ch_CipherSuites clientHelloInfo;
      CompressionMethods := ch_CompressionMethods clientHelloInfo;
      Extensions := seq (length h) (length objs);
      TLSVersMin := 0;
      TLSVersMax := 0;
      GetSessionID := Some Sum256 |}, None, (h ++ objs)%list).

(** [CreateSpecWithClientHello] *)
Definition CreateSpecWithClientHello (clienthello : clienthello_arg) (h : store)
    : ClientHelloSpec * option build_error * store :=
  match clienthello with
  | ArgBytes value =>
      match decodeClientHello value with
      | (_, Some err) => (ClientHelloSpec_zero, Some (ErrDecode err), h)
      | (clientHelloInfo, None) => spec_of_ClientHello clientHelloInfo h
      end
  | ArgClientHelloID value =>
      let '(spec, err, h') := UTLSIdToSpec value h in
      (spec, ErrPreset <$> err, h')
  | ArgString value =>
      match hex_DecodeString value with
      | inr err => (ClientHelloSpec_zero, Some (ErrHex err), h)
      | inl v =>
          match decodeClientHello v with
          | (_, Some err) => (ClientHelloSpec_zero, Some (ErrDecode err), h)
          | (clientHelloInfo, None) => spec_of_ClientHello clientHelloInfo h
          end
      end
  | ArgOther => (ClientHelloSpec_zero, Some ErrClientHelloType, h)
  end.
End Builder.

End Builder.

(** ** Concurrent callers of [setSpecErrWithKeyShareExtension]

    Each call is a sequence of atomic actions on the shared state: the
    [Load] of line 33, then either [Has] (line 36) and [Add] (line 38) on
    the record found, or the [Store] of a new record (line 42).  The map
    holds one pointer per key; records are the objects pointed to. *)

Module Interleaving.

Record shared := Shared {
  sh_map : gmap string nat;
  sh_records : list (gset Z)
}.

Inductive pc :=
  | AtLoad
  | AtHas (p : nat)
  | AtAdd (p : nat)
  | AtStore
  | Returned (change : bool).

Record thread := Thread { t_key : string; t_value : Z; t_pc : pc }.

Definition at_pc (t : thread) (p : pc) : thread :=
  Thread (t_key t) (t_value t) p.

(** One atomic action of a caller. *)
Definition step (t : thread) (s : shared) : thread * shared :=
  match t_pc t with
  | AtLoad =>
      match sh_map s !! t_key t with
      | Some p => (at_pc t (AtHas p), s)
      | None => (at_pc t AtStore, s)
      end
  | AtHas p =>
      if bool_decide (t_value t ∈ default ∅ (sh_records s !! p))
      then (at_pc t (Returned false), s)
      else (at_pc t (AtAdd p), s)
  | AtAdd p =>
      (at_pc t (Returned true),
       Shared (sh_map s) (alter (fun M => {[t_value t]} ∪ M) p (sh_records s)))
  | AtStore =>
      (at_pc t (Returned true),
       Shared (<[t_key t := length (sh_records s)]> (sh_map s))
              (sh_records s ++ [{[t_value t]}])%list)
  | Returned _ => (t, s)
  end.

(** The scheduler lets caller [i] take its next action. *)
Definition sched_step (cfg : list thread * shared) (i : nat) : list thread * shared :=
  match fst cfg !! i with
  | Some t => let '(t', s') := step t (snd cfg) in (<[i := t']> (fst cfg), s')
  | None => cfg
  end.

Definition run (schedule : list nat) (cfg : list thread * shared) : list thread * shared :=
  fold_left sched_step schedule cfg.

(** The ErrorMemory a later [Load] of the key would see. *)
Definition memory (s : shared) (key : string) : gset Z :=
  match sh_map s !! key with
  | Some p => default ∅ (sh_records s !! p)
  | None => ∅
  end.

Definition returned (t : thread) : option bool :=
  match t_pc t with
  | Returned c => Some c
  | _ => None
  end.

Definition start (key : string) (value : Z) : thread := Thread key value AtLoad.

Definition empty_client : shared := Shared ∅ [].

(** What holds at every point of a run in which all callers report the
    same group [G] for the same destination [key]: every record ever
    created holds exactly [G], pointers are valid, and once some caller has
    done its [Load], the key is in the map or some caller is about to
    store it. *)
Definition same_group_inv (key : string) (G : Z) (cfg : list thread * shared) : Prop :=
  (forall j t, fst cfg !! j = Some t ->
     t_key t = key /\ t_value t = G
     /\ (forall p, t_pc t = AtHas p \/ t_pc t = AtAdd p ->
                   (p < length (sh_records (snd cfg)))%nat))
  /\ (forall k p, sh_map (snd cfg) !! k = Some p -> (p < length (sh_records (snd cfg)))%nat)
  /\ Forall (fun M => M = {[G]}) (sh_records (snd cfg))
  /\ ((exists j t, fst cfg !! j = Some t /\ t_pc t <> AtLoad) ->
      is_Some (sh_map (snd cfg) !! key)
      \/ exists j t, fst cfg !! j = Some t /\ t_pc t = AtStore).

End Interleaving.

(** ** Concrete values used in the examples *)

Module Examples.
Import TLS.

Definition share (g : Z) : KeyShare := {| Group := g; Data := [] |}.

(** A template with key-share groups 23, 24, 29 and the same supported
    curves, among other extensions. *)
Definition template_store : store :=
  [ OtherExtension 0 [];
    SupportedCurvesExtension [23; 24; 29];
    ALPNExtension ["h2"; "http/1.1"];
    KeyShareExtension [share 23; share 24; share 29];
    OtherExtension 21 [] ].

Definition template : ClientHelloSpec :=
  {| CipherSuites := [4865; 4866; 4867];
     CompressionMethods := [0];
     Extensions := [0; 1; 2; 3; 4]%nat;
     TLSVersMin := 769;
     TLSVersMax := 772;
     GetSessionID := None |}.

(** A registry that has recorded group 24 for "example.com". *)
Definition registry_24 : registry :=
  snd (setSpecErrWithKeyShareExtension NewClient "example.com" 24).

(** A template whose ALPN list has "http/1.1" but not in first place. *)
Definition spdy_store : store := [ ALPNExtension ["spdy/3.1"; "http/1.1"] ].
Definition spdy_template : ClientHelloSpec :=
  {| CipherSuites := []; CompressionMethods := [0]; Extensions := [0%nat];
     TLSVersMin := 0; TLSVersMax := 0; GetSessionID := None |}.

(** An engine that refuses every preset with the same error. *)
Definition refusing (err : error)
    : unit -> ClientHelloSpec -> store -> unit * ClientHelloSpec * store * option error :=
  fun eng uspec h => (eng, uspec, h, Some err).

Definition no_handshake : unit -> unit * option error := fun eng => (eng, None).

Definition curve_error_24 : error :=
  "tls: unsupported Curve in KeyShareExtension: CurveID(24)".

Definition fresh_world : world := World NewClient template_store tt 0.

(** A spec with a supported-curves and a key-share extension, over a
    store that offers only group 24. *)
Definition all_24_store : store :=
  [ SupportedCurvesExtension [24]; KeyShareExtension [share 24] ].
Definition curves_and_shares : ClientHelloSpec :=
  {| CipherSuites := [4865]; CompressionMethods := [0]; Extensions := [0; 1]%nat;
     TLSVersMin := 0; TLSVersMax := 0; GetSessionID := None |}.

(** Stand-ins for the parser, the preset table and the hash, to run the
    builder on: a parser that accepts every capture, a preset table whose
    entries leave [GetSessionID] unset, and some function on bytes. *)
Definition parsed_hello : Builder.ClientHello nat :=
  {| Builder.ch_CipherSuites := [4865; 4866];
     Builder.ch_CompressionMethods := [0];
     Builder.ch_Extensions := [10; 43]%nat |}.
Definition accepting_parser (capture : list Z) : Builder.ClientHello nat * option error :=
  (parsed_hello, None).
Definition opaque_ext (n : nat) : TLSExtension := OtherExtension (Z.of_nat n) [].
Definition preset_without_hash (id : nat) (h : store)
    : ClientHelloSpec * option error * store :=
  ({| CipherSuites := [4865]; CompressionMethods := [0]; Extensions := [];
      TLSVersMin := 771; TLSVersMax := 772; GetSessionID := None |}, None, h).
Definition some_hash (input : list Z) : list Z := input.

(** The same spec over a store that does not offer group 24 at all. *)
Definition without_24_store : store :=
  [ SupportedCurvesExtension [23; 29]; KeyShareExtension [share 29] ].

End Examples.

(** ** Further definitions *)

Module More.
Import TLS.

(** A call as the Go types allow it: the group of a direct recording is a
    [uint16]. *)
Definition call_typed (c : method_call) : Prop :=
  match c with
  | CallRecordGroup _ value => is_uint16 value
  | _ => True
  end.

(** No key-share or supported-curve entry of the extension has a group id
    in [M]. *)
Definition clean_ext (M : gset Z) (e : TLSExtension) : Prop :=
  match e with
  | KeyShareExtension ks => Forall (fun k => to_uint16 (Group k) ∉ M) ks
  | SupportedCurvesExtension cs => Forall (fun g => to_uint16 g ∉ M) cs
  | _ => True
  end.

(** The same for every extension a spec points to. *)
Definition clean_spec (M : gset Z) (spec : ClientHelloSpec) (h : store) : Prop :=
  forall ext e, ext ∈ Extensions spec -> h !! ext = Some e -> clean_ext M e.

(** The protocol list of an ALPN extension object, if it is one. *)
Definition alpn_view (o : option TLSExtension) : option (list string) :=
  match o with
  | Some (ALPNExtension protos) => Some protos
  | _ => None
  end.

(** What a mode of [createSpecWithSpec] does to the protocol list of the
    ALPN extension it finds. *)
Definition mode_rewrite (NextProtoH3 : string) (h2 h3 : bool)
    : list string -> list string :=
  if h3 then fun _ => [NextProtoH3]
  else if h2 then fun protos => protos
  else http1_protocols.


(** A caller for [key] that is at its [Load], or has Loaded the record at
    [p] and is at [Has] or [Add]: it is not between a [Load] that missed
    and its [Store]. *)
Definition in_flight_on (key : string) (p : nat) (t : Interleaving.thread) : Prop :=
  Interleaving.t_key t = key
  /\ (Interleaving.t_pc t = Interleaving.AtLoad
      \/ Interleaving.t_pc t = Interleaving.AtHas p
      \/ Interleaving.t_pc t = Interleaving.AtAdd p).

(** What holds at every point of a run in which all callers report, with
    groups [values], for a destination [key] whose record already exists at
    [p] in the starting state [s0]: the map and the other records are as in
    [s0], nobody is about to store, the destination's record lies between
    what it held in [s0] and that plus the reported groups, and the group
    of a caller that has returned is in it. *)
Definition existing_inv (key : string) (p : nat) (s0 : Interleaving.shared)
    (values : list Z) (cfg : list Interleaving.thread * Interleaving.shared) : Prop :=
  Interleaving.sh_map (snd cfg) = Interleaving.sh_map s0
  /\ length (Interleaving.sh_records (snd cfg)) = length (Interleaving.sh_records s0)
  /\ (forall q, q <> p ->
        Interleaving.sh_records (snd cfg) !! q = Interleaving.sh_records s0 !! q)
  /\ Interleaving.memory s0 key ⊆ Interleaving.memory (snd cfg) key
  /\ Interleaving.memory (snd cfg) key ⊆ Interleaving.memory s0 key ∪ list_to_set values
  /\ length (fst cfg) = length values
  /\ (forall j t, fst cfg !! j = Some t ->
        Interleaving.t_key t = key
        /\ values !! j = Some (Interleaving.t_value t)
        /\ (Interleaving.t_pc t = Interleaving.AtLoad
            \/ Interleaving.t_pc t = Interleaving.AtHas p
            \/ Interleaving.t_pc t = Interleaving.AtAdd p
            \/ exists c, Interleaving.t_pc t = Interleaving.Returned c
                         /\ Interleaving.t_value t ∈ Interleaving.memory (snd cfg) key)).

End More.

(** ** QUIC presets (uja3.go) *)

Module Quic.

Inductive uspec_error :=
  | ErrQUICID (e : TLS.error)  (* returned by uquic.QUICID2Spec *)
  | ErrUnsupported.            (* errors.New("unsupported type") *)

(** The preset table [uquic.QUICID2Spec], its identifiers and its result
    type are outside this file: the functions are given over any of them.
    [QUICSpec_zero] is [uquic.QUICSpec{}]. *)
Section Quic.
Variable QUICID : Type.
Variable QUICSpec : Type.
Variable QUICSpec_zero : QUICSpec.
Variable QUICID2Spec : QUICID -> QUICSpec * option TLS.error.
Variable QUICFirefox_116 : QUICID.

Record USpec := { USpec_QUICID : QUICID }.

(** [USpec.Spec] *)
Definition Spec (obj : USpec) : QUICSpec * option TLS.error :=
  match QUICID2Spec (USpec_QUICID obj) with
  | (_, Some err) => (QUICSpec_zero, Some err)
  | (spec, None) => (spec, None)
  end.

(** The dynamic type of the [any] argument. *)
Inductive uspec_arg :=
  | ArgBool (data : bool)
  | ArgQUICID (data : QUICID)
  | ArgUSpec (data : USpec)
  | ArgOther.

(** [CreateUSpec] *)
Definition CreateUSpec (value : uspec_arg) : QUICSpec * option uspec_error :=
  match value with
  | ArgBool data =>
      if data
      then let '(spec, err) := QUICID2Spec QUICFirefox_116 in (spec, ErrQUICID <$> err)
      else (QUICSpec_zero, None)
  | ArgQUICID data =>
      let '(spec, err) := QUICID2Spec data in (spec, ErrQUICID <$> err)
  | ArgUSpec data =>
      let '(spec, err) := Spec data in (spec, ErrQUICID <$> err)
  | ArgOther => (QUICSpec_zero, Some ErrUnsupported)
  end.
End Quic.

End Quic.

Module MoreExamples.
Import TLS.

(** An engine that accepts every preset, and a handshake that fails. *)
Definition accepting
    : unit -> ClientHelloSpec -> store -> unit * ClientHelloSpec * store * option error :=
  fun eng uspec h => (eng, uspec, h, None).

Definition failing_handshake (err : error) : unit -> unit * option error :=
  fun eng => (eng, Some err).

(** An engine that refuses its first preset for group 24 and accepts from
    then on; its state counts the presets applied. *)
Definition refusing_once
    : nat -> ClientHelloSpec -> store -> nat * ClientHelloSpec * store * option error :=
  fun eng uspec h =>
    (S eng, uspec, h,
     match eng with O => Some Examples.curve_error_24 | S _ => None end).

Definition handshake_ok : nat -> nat * option error := fun eng => (eng, None).

(** A parser that refuses every capture. *)
Definition refusing_parser : list Z -> Builder.ClientHello nat * option error :=
  fun capture => (Examples.parsed_hello, Some "short read").

(** A QUIC preset table with the one entry 116. *)
Definition quic_table (id : nat) : list Z * option error :=
  if Nat.eqb id 116 then ([1; 2; 3], None) else ([9], Some "unknown QUIC ID").

End MoreExamples.

(* ===================================================================== *)
(** * Part II. Properties                                                 *)
(* ===================================================================== *)

Import TLS.

(** ** The definitions on the values of the source *)

Example Fp_default :
  H2.Fp ToLowerASCII
    (H2.DefaultH2Spec [":Method"; ":Authority"; ":Scheme"; ":Path"; "Host"; "Cookie"])
  = "1:65536,2:0,3:1000,4:6291456,6:262144|15663105|0|m,a,s,p".
Proof. reflexivity. Qed.

Example CreateH2SpecWithStr_example :
  H2.CreateH2SpecWithStr "1:65536,2:0,4:6291456,6:262144|15663105|0|m,a,s,p"
  = H2.Ok {| H2.InitialSetting :=
               [ {| H2.Id := 1; H2.Val := 65536 |}; {| H2.Id := 2; H2.Val := 0 |};
                 {| H2.Id := 4; H2.Val := 6291456 |};
                 {| H2.Id := 6; H2.Val := 262144 |} ];
             H2.ConnFlow := 15663105;
             H2.OrderHeaders := [":method"; ":authority"; ":scheme"; ":path"];
             H2.Priority_ := H2.Priority_zero |}.
Proof. reflexivity. Qed.

Example CreateH2SpecWithStr_three_fields :
  H2.CreateH2SpecWithStr "1:65536|15663105|m,a,s,p" = H2.Err H2.ErrSpecFormat.
Proof. reflexivity. Qed.

Example Atoi_examples :
  Atoi "12" = Some 12 /\ Atoi "+12" = Some 12 /\ Atoi "-0" = Some 0
  /\ Atoi "" = None /\ Atoi "-" = None /\ Atoi "1_0" = None /\ Atoi " 1" = None
  /\ Atoi "9223372036854775807" = Some 9223372036854775807
  /\ Atoi "9223372036854775808" = None
  /\ Atoi "-9223372036854775808" = Some (-9223372036854775808).
Proof. repeat split. Qed.

Example Split_examples :
  Split "" "," = [""] /\ Split "a,,b," "," = ["a"; ""; "b"; ""]
  /\ Split "abc" "," = ["abc"].
Proof. repeat split. Qed.

Example re_Search_examples :
  re_Search "tls: unsupported Curve in KeyShareExtension: CurveID(4588)" = Some "4588"
  /\ re_Search "unsupported Curve in KeyShareExtension: CurveID()" = None
  /\ re_Search "unsupported Curve in KeyShareExtension: CurveID(25" = None
  /\ re_Search "remote error: tls: handshake failure" = None.
Proof. repeat split. Qed.

Example record_from_error :
  setSpecErrWithError NewClient "example.com" Examples.curve_error_24
  = (true, Examples.registry_24).
Proof. reflexivity. Qed.

Example hex_DecodeString_examples :
  hex_DecodeString "160301" = inl [22; 3; 1]
  /\ hex_DecodeString "1603g1" = inr (InvalidByteError "g")
  /\ hex_DecodeString "16030" = inr ErrLength.
Proof. repeat split. Qed.

(** ** Pruning *)

Section Pruning.
Variable M : gset Z.

Lemma keeps_decide g : bool_decide (to_uint16 g ∈ M) = negb (keeps M g).
Proof. unfold keeps. by rewrite bool_decide_not, negb_involutive. Qed.

Lemma prune_KeyShares_filter ks : forall change acc,
  prune_KeyShares M ks change acc =
    (change || existsb (fun k => keeps M (Group k)) ks,
     (acc ++ List.filter (fun k => keeps M (Group k)) ks)%list).
Proof.
  induction ks as [|k ks IH]; intros change acc; simpl.
  - by rewrite orb_false_r, app_nil_r.
  - rewrite keeps_decide. destruct (keeps M (Group k)); simpl.
    + rewrite IH, orb_true_r. simpl. by rewrite <- app_assoc.
    + apply IH.
Qed.

Lemma prune_Curves_filter cs : forall change acc,
  prune_Curves M cs change acc =
    (change || existsb (keeps M) cs, (acc ++ List.filter (keeps M) cs)%list).
Proof.
  induction cs as [|g cs IH]; intros change acc; simpl.
  - by rewrite orb_false_r, app_nil_r.
  - rewrite keeps_decide. destruct (keeps M g); simpl.
    + rewrite IH, orb_true_r. simpl. by rewrite <- app_assoc.
    + apply IH.
Qed.

Lemma filter_twice {A} (f : A -> bool) l :
  List.filter f (List.filter f l) = List.filter f l.
Proof.
  induction l as [|x l IH]; simpl; [done|].
  destruct (f x) eqn:E; simpl; [rewrite E|]; congruence.
Qed.

Lemma existsb_filter {A} (f : A -> bool) l :
  existsb f (List.filter f l) = existsb f l.
Proof.
  induction l as [|x l IH]; simpl; [done|].
  destruct (f x) eqn:E; simpl; rewrite ?E; simpl; congruence.
Qed.

Lemma prune_ext_idem e : prune_ext M (prune_ext M e) = prune_ext M e.
Proof. destruct e; simpl; by rewrite ?filter_twice. Qed.

Lemma has_survivor_prune e : has_survivor M (prune_ext M e) = has_survivor M e.
Proof. destruct e; simpl; by rewrite ?existsb_filter. Qed.

Lemma filter_keeps_no_memory {A} (f : A -> Z) l :
  List.filter (fun x => keeps ∅ (f x)) l = l.
Proof.
  induction l as [|x l IH]; simpl; [done|].
  unfold keeps at 1. rewrite bool_decide_true by set_solver. by rewrite IH.
Qed.

Lemma prune_ext_no_memory e : M = ∅ -> prune_ext M e = e.
Proof.
  intros ->. destruct e; simpl; try done.
  - by rewrite (filter_keeps_no_memory Group).
  - by rewrite (filter_keeps_no_memory (fun g => g)).
Qed.

Lemma size_pos_decide : bool_decide (0 < size M)%nat = bool_decide (M ≠ ∅).
Proof.
  apply bool_decide_ext. pose proof (size_non_empty_iff M) as H.
  unfold_leibniz. rewrite <- H. lia.
Qed.

Lemma lookup_visit h ext l :
  visit M h ext !! l = if decide (l = ext) then prune_ext M <$> h !! l else h !! l.
Proof.
  unfold visit. destruct (decide (l = ext)) as [->|Hne].
  - destruct (h !! ext) as [e|] eqn:E; simpl; [|done].
    apply list_lookup_insert_eq. by eapply lookup_lt_Some.
  - destruct (h !! ext); [|done]. by apply list_lookup_insert_ne.
Qed.

Lemma length_visit h ext : length (visit M h ext) = length h.
Proof. unfold visit. destruct (h !! ext); [apply length_insert|done]. Qed.

Lemma changeSpec_loop_cons ext rest change h :
  M ≠ ∅ ->
  changeSpec_loop M (ext :: rest) change h =
    changeSpec_loop M rest (change || survivor_at M h ext) (visit M h ext).
Proof.
  intros HM. simpl. unfold survivor_at, visit.
  rewrite size_pos_decide, bool_decide_true by done.
  destruct (h !! ext) as [[ks|cs|ps|k b]|] eqn:E; simpl.
  - by rewrite prune_KeyShares_filter.
  - by rewrite prune_Curves_filter.
  - by rewrite orb_false_r, list_insert_id.
  - by rewrite orb_false_r, list_insert_id.
  - by rewrite orb_false_r.
Qed.

Lemma changeSpec_loop_no_memory exts : forall change h,
  M = ∅ -> changeSpec_loop M exts change h = (change, h).
Proof.
  induction exts as [|ext rest IH]; intros change h HM; simpl; [done|].
  rewrite size_pos_decide, bool_decide_false by (intros ?; done).
  destruct (h !! ext) as [[ks|cs|ps|k b]|]; by apply IH.
Qed.

Lemma survivor_at_visit h ext x : survivor_at M (visit M h ext) x = survivor_at M h x.
Proof.
  unfold survivor_at. rewrite lookup_visit.
  destruct (decide (x = ext)); [|done].
  destruct (h !! x); simpl; [|done]. apply has_survivor_prune.
Qed.

Lemma changeSpec_loop_spec exts : forall change h,
  M ≠ ∅ ->
  (forall l, snd (changeSpec_loop M exts change h) !! l =
     if bool_decide (l ∈ exts) then prune_ext M <$> h !! l else h !! l)
  /\ length (snd (changeSpec_loop M exts change h)) = length h
  /\ fst (changeSpec_loop M exts change h) = change || existsb (survivor_at M h) exts.
Proof.
  induction exts as [|ext rest IH]; intros change h HM.
  - simpl. split; [intros l|]; [done|]. by rewrite orb_false_r.
  - rewrite changeSpec_loop_cons by done.
    destruct (IH (change || survivor_at M h ext) (visit M h ext) HM) as (Hs & Hl & Hc).
    split; [|split].
    + intros l. rewrite Hs, lookup_visit.
      destruct (decide (l = ext)) as [->|Hne].
      * rewrite (bool_decide_true (ext ∈ ext :: rest)); [|by left].
        destruct (h !! ext) as [e|]; destruct (bool_decide (ext ∈ rest));
          try done.
        change (Some (prune_ext M (prune_ext M e)) = Some (prune_ext M e)).
        by rewrite prune_ext_idem.
      * rewrite (bool_decide_ext (l ∈ ext :: rest) (l ∈ rest)); [done|].
        rewrite elem_of_cons. tauto.
    + by rewrite Hl, length_visit.
    + rewrite Hc. simpl. rewrite <- orb_assoc. do 2 f_equal.
      clear. induction rest as [|x rest IH]; simpl; [done|].
      by rewrite IH, survivor_at_visit.
Qed.
End Pruning.

Lemma changeSpec_store reg key spec h l :
  snd (changeSpec reg key spec h) !! l =
    if bool_decide (l ∈ Extensions spec)
    then prune_ext (rejected reg key) <$> h !! l else h !! l.
Proof.
  assert (Hid : forall M, M = ∅ ->
    h !! l = if bool_decide (l ∈ Extensions spec)
             then prune_ext M <$> h !! l else h !! l).
  { intros M HM. destruct (bool_decide _); [|done].
    destruct (h !! l) as [e|]; simpl; [|done]. by rewrite prune_ext_no_memory. }
  unfold changeSpec, rejected. destruct (reg !! key) as [M|]; simpl.
  - destruct (decide (M = ∅)) as [HM|HM].
    + rewrite changeSpec_loop_no_memory by done. by apply Hid.
    + by apply changeSpec_loop_spec.
  - by apply Hid.
Qed.

Lemma changeSpec_length reg key spec h :
  length (snd (changeSpec reg key spec h)) = length h.
Proof.
  unfold changeSpec. destruct (reg !! key) as [M|]; simpl; [|done].
  destruct (decide (M = ∅)) as [HM|HM].
  - by rewrite changeSpec_loop_no_memory.
  - by apply changeSpec_loop_spec.
Qed.

Lemma spec_has_survivor_iff M spec h :
  spec_has_survivor M spec h = true <-> entry_outside M spec h.
Proof.
  unfold spec_has_survivor, entry_outside, survivor_at.
  rewrite existsb_exists. split.
  - intros (ext & Hin & Hs). apply list_elem_of_In in Hin.
    destruct (h !! ext) as [e|] eqn:E; simpl in Hs; [|done].
    exists ext, e. split; [done|]. split; [done|].
    destruct e as [ks|cs|ps|k b]; simpl in Hs; try done.
    + apply existsb_exists in Hs as (k & Hk & Hkeep). left. exists ks, k.
      apply list_elem_of_In in Hk. unfold keeps in Hkeep.
      by apply bool_decide_eq_true in Hkeep.
    + apply existsb_exists in Hs as (g & Hg & Hkeep). right. exists cs, g.
      apply list_elem_of_In in Hg. unfold keeps in Hkeep.
      by apply bool_decide_eq_true in Hkeep.
  - intros (ext & e & Hin & E & Hcase). exists ext.
    split; [by apply list_elem_of_In|]. rewrite E. simpl.
    destruct Hcase as [(ks & k & -> & Hk & Hout)|(cs & g & -> & Hg & Hout)];
      simpl; apply existsb_exists.
    + exists k. split; [by apply list_elem_of_In|]. by apply bool_decide_eq_true.
    + exists g. split; [by apply list_elem_of_In|]. by apply bool_decide_eq_true.
Qed.

Lemma changeSpec_change reg key spec h :
  fst (changeSpec reg key spec h) =
    match reg !! key with
    | Some M => bool_decide (M ≠ ∅) && spec_has_survivor M spec h
    | None => false
    end.
Proof.
  unfold changeSpec. destruct (reg !! key) as [M|]; [|done].
  destruct (decide (M = ∅)) as [HM|HM].
  - rewrite changeSpec_loop_no_memory by done.
    by rewrite bool_decide_false by (intros ?; done).
  - rewrite bool_decide_true by done.
    by destruct (changeSpec_loop_spec M (Extensions spec) false h HM) as (_ & _ & ->).
Qed.

(** C1.  Applying a destination's ErrorMemory to a spec ([changeSpec])
    rewrites the extension objects the spec points to, and nothing else:
    each key-share extension keeps exactly the entries whose 16-bit group id
    is not in the rejected set, each supported-curves extension likewise,
    in their original order ([List.filter]); every other extension and every
    object the spec does not point to is left as it was.  The spec value
    itself (cipher suites, compression methods, extension list) is passed
    by value and is not written.  For the template with key shares and
    curves 23, 24, 29 and a memory holding only 24, both lists become
    23, 29. *)
Theorem changeSpec_removes_exactly_rejected :
  forall reg key spec h l,
    let M := rejected reg key in
    let h' := snd (changeSpec reg key spec h) in
    h' !! l = (if bool_decide (l ∈ Extensions spec)
               then prune_ext M <$> h !! l else h !! l)
    /\ length h' = length h
    /\ (forall ks, prune_ext M (KeyShareExtension ks) =
          KeyShareExtension
            (List.filter (fun k => bool_decide (to_uint16 (Group k) ∉ M)) ks))
    /\ (forall cs, prune_ext M (SupportedCurvesExtension cs) =
          SupportedCurvesExtension
            (List.filter (fun g => bool_decide (to_uint16 g ∉ M)) cs))
    /\ (forall ps, prune_ext M (ALPNExtension ps) = ALPNExtension ps)
    /\ (forall k b, prune_ext M (OtherExtension k b) = OtherExtension k b)
    /\ rejected Examples.registry_24 "example.com" = {[ 24 ]}
    /\ snd (changeSpec Examples.registry_24 "example.com"
              Examples.template Examples.template_store) =
        [ OtherExtension 0 [];
          SupportedCurvesExtension [23; 29];
          ALPNExtension ["h2"; "http/1.1"];
          KeyShareExtension [Examples.share 23; Examples.share 29];
          OtherExtension 21 [] ].
Proof.
  intros reg key spec h l M h'. repeat split.
  - apply changeSpec_store.
  - apply changeSpec_length.
Qed.

(** ** The registry *)

Lemma record_change reg key v :
  fst (setSpecErrWithKeyShareExtension reg key v) = bool_decide (v ∉ rejected reg key).
Proof.
  unfold setSpecErrWithKeyShareExtension, rejected.
  destruct (reg !! key) as [M|]; simpl.
  - destruct (decide (v ∈ M)).
    + rewrite bool_decide_true, bool_decide_false by tauto. done.
    + rewrite bool_decide_false, bool_decide_true by done. done.
  - by rewrite bool_decide_true by set_solver.
Qed.

Lemma record_rejected reg key v key' :
  rejected (snd (setSpecErrWithKeyShareExtension reg key v)) key' =
    if decide (key' = key) then {[v]} ∪ rejected reg key else rejected reg key'.
Proof.
  unfold setSpecErrWithKeyShareExtension, rejected.
  destruct (reg !! key) as [M|] eqn:E; simpl.
  - case_bool_decide; simpl.
    + destruct (decide (key' = key)) as [->|]; [|done].
      rewrite E. simpl. set_solver.
    + destruct (decide (key' = key)) as [->|].
      * by rewrite lookup_insert_eq.
      * by rewrite lookup_insert_ne.
  - destruct (decide (key' = key)) as [->|].
    + rewrite lookup_insert_eq. simpl. set_solver.
    + by rewrite lookup_insert_ne.
Qed.

Lemma record_error_classify reg key err :
  setSpecErrWithError reg key err =
    match classify err with
    | Some g => setSpecErrWithKeyShareExtension reg key g
    | None => (false, reg)
    end.
Proof.
  unfold setSpecErrWithError, classify.
  destruct (re_Search err) as [g|]; [|done].
  destruct (Atoi g) as [i|]; simpl; [|done].
  by destruct (setSpecErrWithKeyShareExtension reg key (to_uint16 i)) as [[] reg'].
Qed.

Lemma record_mono reg key v D : rejected reg D ⊆ rejected (snd (setSpecErrWithKeyShareExtension reg key v)) D.
Proof. rewrite record_rejected. destruct (decide (D = key)) as [->|]; set_solver. Qed.

Lemma record_error_mono reg key err D :
  rejected reg D ⊆ rejected (snd (setSpecErrWithError reg key err)) D.
Proof.
  rewrite record_error_classify. destruct (classify err); [apply record_mono|done].
Qed.

Lemma call_mono c st D : rejected (fst st) D ⊆ rejected (fst (call c st)) D.
Proof.
  destruct c; simpl; [apply record_mono|apply record_error_mono|done].
Qed.

Lemma calls_mono cs : forall st D, rejected (fst st) D ⊆ rejected (fst (calls cs st)) D.
Proof.
  induction cs as [|c cs IH]; intros st D; simpl; [done|].
  etrans; [apply (call_mono c)|apply IH].
Qed.

Section ControllerFacts.
Context {Engine : Type}.
Variable ApplyPreset :
  Engine -> ClientHelloSpec -> store -> Engine * ClientHelloSpec * store * option error.
Variable HandshakeContext : Engine -> Engine * option error.
Variable NextProtoH3 : string.

Lemma Client_loop_mono fuel serverName utlsSpec D : forall uspec w ex w',
  Client_loop ApplyPreset fuel serverName utlsSpec uspec w = Some (ex, w') ->
  rejected (w_registry w) D ⊆ rejected (w_registry w') D.
Proof.
  induction fuel as [|fuel IH]; intros uspec w ex w' Hrun; simpl in Hrun; [done|].
  destruct (ApplyPreset (w_engine w) uspec (w_store w)) as [[[eng uspec'] h] [err|]].
  - pose proof (record_error_mono (w_registry w) serverName err D) as Hm.
    destruct (setSpecErrWithError (w_registry w) serverName err) as [c1 reg].
    simpl in Hm. destruct c1; simpl in Hrun.
    + destruct (changeSpec reg serverName utlsSpec h) as [c2 h'].
      destruct c2; simpl in Hrun.
      * apply IH in Hrun. simpl in Hrun. set_solver.
      * by inversion Hrun; subst.
    + by inversion Hrun; subst.
  - by inversion Hrun; subst.
Qed.

Lemma Client_mono fuel ja3Spec h2 serverName D w conn err w' :
  Client ApplyPreset HandshakeContext NextProtoH3 fuel ja3Spec h2 serverName w
    = Some (conn, err, w') ->
  rejected (w_registry w) D ⊆ rejected (w_registry w') D.
Proof.
  unfold Client, createSpecWithSpec. simpl.
  destruct h2; simpl;
    destruct (changeSpec (w_registry w) serverName ja3Spec _) as [c h1].
  all: destruct (Client_loop _ _ _ _ _ _) as [[[|e] w1]|] eqn:Hloop; [| |done].
  all: apply (Client_loop_mono _ _ _ D) in Hloop.
  all: try destruct (HandshakeContext (w_engine w1)) as [eng e'].
  all: by intros [= <- <- <-].
Qed.
End ControllerFacts.

Lemma filter_eqb_absent (x : Z) (l : list Z) :
  x ∉ l -> List.filter (Z.eqb x) l = [].
Proof.
  induction l as [|z l IH]; intros Hx; [done|]. simpl.
  destruct (Z.eqb_spec x z) as [->|].
  - exfalso. apply Hx. by left.
  - apply IH. intros ?. apply Hx. by right.
Qed.

Lemma filter_eqb_NoDup (x : Z) (l : list Z) :
  NoDup l -> x ∈ l -> length (List.filter (Z.eqb x) l) = 1%nat.
Proof.
  induction 1 as [|y l Hy Hnd IH]; intros Hin; [by apply elem_of_nil in Hin|].
  simpl. destruct (Z.eqb_spec x y) as [->|Hne].
  - by rewrite filter_eqb_absent.
  - apply IH. apply elem_of_cons in Hin as [|]; done.
Qed.

(** Calls made one after another.  After two calls of
    [setSpecErrWithKeyShareExtension] with the same destination and group,
    each run to its end before the next starts, the second call reports no
    change and leaves the registry as the first left it, the destination's
    memory holds the group, exactly once; and no sequence of such method
    calls (recording a group, recording from an error, applying the memory
    to a spec) nor a run of the retry loop on its own removes a group from
    any destination's memory.  Calls that overlap are another matter, see
    [memory_shrinks_under_race]. *)
Theorem record_idempotent_monotone :
  forall (reg : registry) (D : string) (G : Z),
    let r1 := setSpecErrWithKeyShareExtension reg D G in
    let r2 := setSpecErrWithKeyShareExtension (snd r1) D G in
    fst r2 = false
    /\ snd r2 = snd r1
    /\ G ∈ rejected (snd r2) D
    /\ length (List.filter (Z.eqb G) (elements (rejected (snd r2) D))) = 1%nat
    /\ (forall cs st D', rejected (fst st) D' ⊆ rejected (fst (calls cs st)) D')
    /\ (forall Engine ApplyPreset HandshakeContext NextProtoH3
               fuel ja3Spec h2 serverName (w : @world Engine) D',
          match Client ApplyPreset HandshakeContext NextProtoH3
                  fuel ja3Spec h2 serverName w with
          | Some (_, _, w') => rejected (w_registry w) D' ⊆ rejected (w_registry w') D'
          | None => True
          end).
Proof.
  intros reg D G r1 r2.
  assert (Hin : G ∈ rejected (snd r1) D).
  { unfold r1. rewrite record_rejected. rewrite decide_True by done. set_solver. }
  assert (Hfst : fst r2 = false).
  { unfold r2. rewrite record_change. by apply bool_decide_false; intros ?. }
  assert (Hsnd : snd r2 = snd r1).
  { unfold r2 in *. unfold setSpecErrWithKeyShareExtension in *. unfold rejected in Hin.
    destruct (snd r1 !! D) as [M|]; simpl in *; [|done].
    by rewrite bool_decide_true. }
  repeat split; try done.
  - by rewrite Hsnd.
  - rewrite Hsnd. apply filter_eqb_NoDup; [apply NoDup_elements|].
    by apply elem_of_elements.
  - intros cs st D'. apply calls_mono.
  - intros Engine ApplyPreset HandshakeContext NextProtoH3 fuel ja3Spec h2 serverName w D'.
    destruct (Client _ _ _ _ _ _ _ _) as [[[conn err] w']|] eqn:E; [|done].
    by eapply Client_mono.
Qed.

(** ** Invariants of the registry *)

Lemma NewClient_nonempty : records_nonempty NewClient.
Proof. intros key M H. unfold NewClient in H. by rewrite lookup_empty in H. Qed.

Lemma record_nonempty reg key v :
  records_nonempty reg ->
  records_nonempty (snd (setSpecErrWithKeyShareExtension reg key v)).
Proof.
  intros Hinv key' M. unfold setSpecErrWithKeyShareExtension.
  destruct (reg !! key) as [M0|] eqn:E; simpl.
  - case_bool_decide; simpl; [apply Hinv|].
    rewrite lookup_insert. case_decide; [|apply Hinv].
    intros [= <-]. set_solver.
  - rewrite lookup_insert. case_decide; [|apply Hinv].
    intros [= <-]. set_solver.
Qed.

Lemma record_error_nonempty reg key err :
  records_nonempty reg -> records_nonempty (snd (setSpecErrWithError reg key err)).
Proof.
  intros Hinv. rewrite record_error_classify.
  destruct (classify err); [by apply record_nonempty|done].
Qed.

Lemma calls_nonempty cs : forall st,
  records_nonempty (fst st) -> records_nonempty (fst (calls cs st)).
Proof.
  induction cs as [|c cs IH]; intros st Hinv; [done|].
  simpl. apply IH. destruct c; simpl;
    [by apply record_nonempty|by apply record_error_nonempty|done].
Qed.

Lemma to_uint16_range i : is_uint16 (to_uint16 i).
Proof. unfold is_uint16, to_uint16. apply Z.mod_pos_bound. lia. Qed.

Lemma NewClient_uint16 : records_uint16 NewClient.
Proof. intros key M g H. unfold NewClient in H. by rewrite lookup_empty in H. Qed.

Lemma record_uint16 reg key v :
  is_uint16 v -> records_uint16 reg ->
  records_uint16 (snd (setSpecErrWithKeyShareExtension reg key v)).
Proof.
  intros Hv Hinv key' M g. unfold setSpecErrWithKeyShareExtension.
  destruct (reg !! key) as [M0|] eqn:E; simpl.
  - case_bool_decide; simpl; [apply Hinv|].
    rewrite lookup_insert. case_decide; [|apply Hinv].
    intros [= <-] [->%elem_of_singleton|Hg]%elem_of_union; [done|].
    by eapply Hinv.
  - rewrite lookup_insert. case_decide; [|apply Hinv].
    by intros [= <-] ->%elem_of_singleton.
Qed.

Lemma classify_uint16 err g : classify err = Some g -> is_uint16 g.
Proof.
  unfold classify. destruct (re_Search err) as [d|]; [|done].
  destruct (Atoi d) as [i|]; simpl; [|done].
  intros [= <-]. apply to_uint16_range.
Qed.

Lemma record_error_uint16 reg key err :
  records_uint16 reg -> records_uint16 (snd (setSpecErrWithError reg key err)).
Proof.
  intros Hinv. rewrite record_error_classify.
  destruct (classify err) as [g|] eqn:E; [|done].
  apply record_uint16; [by eapply classify_uint16|done].
Qed.

Lemma rejected_uint16 reg key g :
  records_uint16 reg -> g ∈ rejected reg key -> is_uint16 g.
Proof.
  unfold rejected. intros Hinv. destruct (reg !! key) as [M|] eqn:E; simpl.
  - by apply (Hinv key M g).
  - set_solver.
Qed.

(** A set of [uint16] has at most 2^16 elements. *)
Lemma size_uint16 (M : gset Z) :
  (forall g, g ∈ M -> is_uint16 g) -> Z.of_nat (size M) <= 65536.
Proof.
  intros HM.
  assert (Hsub : M ⊆ list_to_set (seqZ 0 65536)).
  { intros g Hg. apply elem_of_list_to_set, elem_of_seqZ.
    specialize (HM g Hg). unfold is_uint16 in HM. lia. }
  apply subseteq_size in Hsub.
  rewrite size_list_to_set, length_seqZ in Hsub by apply NoDup_seqZ. lia.
Qed.

(** A recording that reports a change adds one group to the memory. *)
Lemma record_error_grows reg key err reg' :
  setSpecErrWithError reg key err = (true, reg') ->
  size (rejected reg' key) = S (size (rejected reg key)).
Proof.
  rewrite record_error_classify. destruct (classify err) as [g|]; [|done].
  intros Hset.
  pose proof (record_change reg key g) as Hc.
  pose proof (record_rejected reg key g key) as Hr.
  rewrite Hset in Hc, Hr. simpl in Hc, Hr. rewrite decide_True in Hr by done.
  symmetry in Hc. apply bool_decide_eq_true in Hc.
  rewrite Hr, size_union, size_singleton by set_solver. done.
Qed.

(** ** The retry loop *)

Section RetryLoop.
Context {Engine : Type}.
Variable ApplyPreset :
  Engine -> ClientHelloSpec -> store -> Engine * ClientHelloSpec * store * option error.
Variable HandshakeContext : Engine -> Engine * option error.
Variable NextProtoH3 : string.

(** The loop returns within [65536 - size memory + 1] iterations, and
    every retry it makes has added a group to the memory. *)
Lemma Client_loop_terminates serverName utlsSpec fuel : forall uspec w,
  records_uint16 (w_registry w) ->
  65536 - Z.of_nat (size (rejected (w_registry w) serverName)) < Z.of_nat fuel ->
  exists ex w',
    Client_loop ApplyPreset fuel serverName utlsSpec uspec w = Some (ex, w')
    /\ records_uint16 (w_registry w')
    /\ (w_attempts w < w_attempts w')%nat
    /\ (w_attempts w' - w_attempts w - 1
        + size (rejected (w_registry w) serverName)
        <= size (rejected (w_registry w') serverName))%nat.
Proof.
  induction fuel as [|fuel IH]; intros uspec w Hinv Hfuel.
  - pose proof (size_uint16 (rejected (w_registry w) serverName)
                  (fun g => rejected_uint16 _ _ g Hinv)). lia.
  - simpl.
    destruct (ApplyPreset (w_engine w) uspec (w_store w)) as [[[eng uspec'] h] [err|]].
    + pose proof (record_error_uint16 (w_registry w) serverName err Hinv) as Hinv1.
      pose proof (record_error_mono (w_registry w) serverName err serverName) as Hmono.
      apply subseteq_size in Hmono.
      destruct (setSpecErrWithError (w_registry w) serverName err) as [c1 reg] eqn:Hrec.
      simpl in Hinv1, Hmono. destruct c1; simpl.
      * apply record_error_grows in Hrec.
        destruct (changeSpec reg serverName utlsSpec h) as [c2 h'].
        destruct c2; simpl.
        -- pose proof (size_uint16 (rejected reg serverName)
                         (fun g => rejected_uint16 _ _ g Hinv1)) as Hbound.
           destruct (IH uspec' (World reg h' eng (S (w_attempts w))))
             as (ex & w' & Hrun & Hinv' & Hatt & Hsize); simpl; [done|lia|].
           simpl in Hatt, Hsize. exists ex, w'.
           split; [done|]. split; [done|]. split; lia.
        -- eexists _, _. split; [done|]. simpl. split; [done|]. split; lia.
      * eexists _, _. split; [done|]. simpl. split; [done|]. split; lia.
    + eexists _, _. split; [done|]. simpl. split; [done|]. split; lia.
Qed.
End RetryLoop.

(** C8.  The retry loop terminates, whatever the handshake engine answers:
    run with one unit of fuel per possible group id and one more, [Client]
    returns; every retry has added one new group id to the destination's
    memory, so the number of retries is at most the growth of that memory,
    which never holds more than 2^16 ids. *)
Theorem Client_retries_bounded :
  forall Engine ApplyPreset HandshakeContext NextProtoH3
         ja3Spec h2 serverName (w : @world Engine),
    records_uint16 (w_registry w) ->
    exists conn err w',
      Client ApplyPreset HandshakeContext NextProtoH3
        enough_fuel ja3Spec h2 serverName w = Some (conn, err, w')
      /\ (w_attempts w < w_attempts w')%nat
      /\ (w_attempts w' - w_attempts w - 1
          + size (rejected (w_registry w) serverName)
          <= size (rejected (w_registry w') serverName))%nat
      /\ Z.of_nat (size (rejected (w_registry w') serverName)) <= 65536
      /\ Z.of_nat (w_attempts w' - w_attempts w - 1) <= 65536.
Proof.
  intros Engine ApplyPreset HandshakeContext NextProtoH3 ja3Spec h2 serverName w Hinv.
  unfold Client.
  destruct (createSpecWithSpec NextProtoH3 ja3Spec h2 false (w_store w))
    as [[utlsSpec err0] h0] eqn:Hcreate.
  assert (err0 = None) as ->.
  { unfold createSpecWithSpec in Hcreate. simpl in Hcreate.
    destruct (negb h2); by inversion Hcreate. }
  destruct (changeSpec (w_registry w) serverName utlsSpec h0) as [c h1].
  pose proof (size_uint16 (rejected (w_registry w) serverName)
                (fun g => rejected_uint16 _ _ g Hinv)) as Hb0.
  destruct (Client_loop_terminates ApplyPreset serverName utlsSpec enough_fuel utlsSpec
              (World (w_registry w) h1 (w_engine w) (w_attempts w)))
    as (ex & w' & Hrun & Hinv' & Hatt & Hsize);
    cbn [w_registry w_attempts]; [done|unfold enough_fuel; lia|].
  cbn [w_registry w_attempts] in Hatt, Hsize. rewrite Hrun.
  pose proof (size_uint16 (rejected (w_registry w') serverName)
                (fun g => rejected_uint16 _ _ g Hinv')) as Hb.
  destruct ex as [|err].
  - destruct (HandshakeContext (w_engine w')) as [eng err].
    eexists _, _, _. split; [done|]. cbn [w_registry w_attempts]. lia.
  - eexists _, _, _. split; [done|]. lia.
Qed.

Lemma Client_retries_bounded_witness :
  records_uint16 (w_registry Examples.fresh_world)
  /\ exists conn err w',
      Client (Examples.refusing Examples.curve_error_24) Examples.no_handshake "h3"
        enough_fuel Examples.template true "example.com" Examples.fresh_world
        = Some (conn, err, w')
      /\ Z.of_nat (w_attempts w' - w_attempts Examples.fresh_world - 1) <= 65536.
Proof.
  split; [apply NewClient_uint16|].
  destruct (Client_retries_bounded unit (Examples.refusing Examples.curve_error_24)
              Examples.no_handshake "h3" Examples.template true "example.com"
              Examples.fresh_world NewClient_uint16)
    as (conn & err & w' & Hrun & _ & _ & _ & Hbound).
  by exists conn, err, w'.
Defined.

(** C10.  [changeSpec] reports whether something survived, not whether
    something was removed: on a registry whose records are never empty it
    returns true exactly when the destination has a record and some
    key-share or supported-curve entry of the spec has a group id outside
    it.  So it returns true when nothing had to be pruned and false when
    pruning empties both lists; and in the retry loop, when an attempt fails
    with a recognised, newly recorded group and no entry survives, the loop
    returns that error after this one attempt, without a further
    [ApplyPreset] and without the handshake. *)
Theorem changeSpec_reports_survivors :
  forall (reg : registry) key spec h,
    records_nonempty reg ->
    (fst (changeSpec reg key spec h) = true
       <-> is_Some (reg !! key) /\ entry_outside (rejected reg key) spec h)
    /\ changeSpec Examples.registry_24 "example.com" Examples.curves_and_shares
         Examples.without_24_store = (true, Examples.without_24_store)
    /\ changeSpec Examples.registry_24 "example.com" Examples.curves_and_shares
         Examples.all_24_store
       = (false, [SupportedCurvesExtension []; KeyShareExtension []])
    /\ (forall Engine ApplyPreset fuel serverName utlsSpec uspec (w : @world Engine)
               eng uspec' h1 err reg1,
          ApplyPreset (w_engine w) uspec (w_store w) = (eng, uspec', h1, Some err) ->
          setSpecErrWithError (w_registry w) serverName err = (true, reg1) ->
          ~ entry_outside (rejected reg1 serverName) utlsSpec h1 ->
          Client_loop ApplyPreset (S fuel) serverName utlsSpec uspec w =
            Some (Return err,
                  World reg1 (snd (changeSpec reg1 serverName utlsSpec h1)) eng
                        (S (w_attempts w)))).
Proof.
  intros reg key spec h Hinv. split; [|split; [done|split; [done|]]].
  - rewrite changeSpec_change. unfold rejected.
    destruct (reg !! key) as [M|] eqn:E; simpl.
    + rewrite bool_decide_true by (by eapply Hinv). simpl.
      rewrite spec_has_survivor_iff. split; [|tauto]. intros ?. split; [by eexists|done].
    + split; [done|]. by intros [[? [=]] _].
  - intros Engine ApplyPreset fuel serverName utlsSpec uspec w eng uspec' h1 err reg1
      Happly Hrec Hnone.
    simpl. rewrite Happly, Hrec. simpl.
    pose proof (changeSpec_change reg1 serverName utlsSpec h1) as Hc.
    destruct (changeSpec reg1 serverName utlsSpec h1) as [c2 h']. simpl in *.
    destruct c2; [|done]. exfalso. apply Hnone. unfold rejected.
    destruct (reg1 !! serverName) as [M|]; [|done]. simpl.
    apply spec_has_survivor_iff. symmetry in Hc. by apply andb_true_iff in Hc as [_ ?].
Qed.

Lemma changeSpec_reports_survivors_witness :
  records_nonempty Examples.registry_24
  /\ (fst (changeSpec Examples.registry_24 "example.com" Examples.template
             Examples.template_store) = true
      <-> is_Some (Examples.registry_24 !! "example.com")
          /\ entry_outside (rejected Examples.registry_24 "example.com")
               Examples.template Examples.template_store).
Proof.
  assert (Hinv : records_nonempty Examples.registry_24).
  { apply record_nonempty, NewClient_nonempty. }
  split; [exact Hinv|].
  exact (proj1 (changeSpec_reports_survivors Examples.registry_24 "example.com"
                  Examples.template Examples.template_store Hinv)).
Defined.

(** C5.  An error whose text does not have the recognised shape is neither
    recorded nor retried: [setSpecErrWithError] returns false and leaves the
    registry as it was, and when the first [ApplyPreset] fails with such an
    error [Client] returns that very error with a nil connection, after
    exactly one attempt, the registry untouched.  Conversely, a call of
    [setSpecErrWithError] that reports a change or alters the registry was
    given an error of the recognised shape, and so was the loop whenever it
    makes another attempt after a failed one. *)
Theorem unrecognised_error_surfaces :
  forall Engine ApplyPreset HandshakeContext NextProtoH3 (err : error),
    re_Search err = None ->
    (forall reg key, setSpecErrWithError reg key err = (false, reg))
    /\ (forall fuel ja3Spec h2 serverName (w : @world Engine) eng uspec' h,
          ApplyPreset (w_engine w) ja3Spec
            (prepared_store NextProtoH3 (w_registry w) ja3Spec h2 serverName (w_store w))
            = (eng, uspec', h, Some err) ->
          Client ApplyPreset HandshakeContext NextProtoH3
            (S fuel) ja3Spec h2 serverName w
          = Some (None, Some err, World (w_registry w) h eng (S (w_attempts w))))
    /\ (forall reg key e,
          setSpecErrWithError reg key e <> (false, reg) -> is_Some (re_Search e))
    /\ (forall fuel serverName utlsSpec uspec (w : @world Engine) eng uspec' h e ex w',
          ApplyPreset (w_engine w) uspec (w_store w) = (eng, uspec', h, Some e) ->
          Client_loop ApplyPreset fuel serverName utlsSpec uspec w = Some (ex, w') ->
          (S (w_attempts w) < w_attempts w')%nat ->
          is_Some (re_Search e)).
Proof.
  intros Engine ApplyPreset HandshakeContext NextProtoH3 err Hno.
  assert (Hrec : forall reg key, setSpecErrWithError reg key err = (false, reg)).
  { intros reg key. unfold setSpecErrWithError. by rewrite Hno. }
  split; [done|]. split; [|split].
  - intros fuel ja3Spec h2 serverName w eng uspec' h Happly.
    unfold prepared_store in Happly. unfold Client.
    destruct (createSpecWithSpec NextProtoH3 ja3Spec h2 false (w_store w))
      as [[utlsSpec err0] h0] eqn:Hcreate.
    assert (utlsSpec = ja3Spec /\ err0 = None) as [-> ->].
    { unfold createSpecWithSpec in Hcreate. simpl in Hcreate.
      destruct (negb h2); by inversion Hcreate. }
    simpl in Happly.
    destruct (changeSpec (w_registry w) serverName ja3Spec h0) as [c h1].
    simpl in *. by rewrite Happly, Hrec.
  - intros reg key e Hne. unfold setSpecErrWithError in Hne.
    destruct (re_Search e); [by eexists|done].
  - intros fuel serverName utlsSpec uspec w eng uspec' h e ex w' Happly Hrun Hretry.
    destruct fuel as [|fuel]; [done|]. simpl in Hrun. rewrite Happly in Hrun.
    unfold setSpecErrWithError in Hrun.
    destruct (re_Search e); [by eexists|].
    simpl in Hrun. inversion Hrun; subst. simpl in Hretry. lia.
Qed.

Lemma unrecognised_error_surfaces_witness :
  re_Search "remote error: tls: handshake failure" = None
  /\ Client (Examples.refusing "remote error: tls: handshake failure")
       Examples.no_handshake "h3" 1 Examples.template true "example.com"
       Examples.fresh_world
     = Some (None, Some "remote error: tls: handshake failure",
             World NewClient Examples.template_store tt 1).
Proof.
  split; [reflexivity|].
  destruct (unrecognised_error_surfaces unit
              (Examples.refusing "remote error: tls: handshake failure")
              Examples.no_handshake "h3" "remote error: tls: handshake failure"
              eq_refl) as (_ & Hclient & _ & _).
  exact (Hclient 0%nat Examples.template true "example.com" Examples.fresh_world
           tt Examples.template Examples.template_store eq_refl).
Defined.

(** ** Protocol-mode adjustment *)

Lemma rewrite_first_ALPN_with f exts : forall h,
  rewrite_first_ALPN f exts h = with_first_ALPN f exts h.
Proof.
  unfold with_first_ALPN.
  induction exts as [|ext rest IH]; intros h; simpl; [done|].
  destruct (h !! ext) as [[ks|cs|ps|k b]|]; by rewrite ?IH.
Qed.

Lemma slices_Index_lower s v : -1 <= slices_Index s v.
Proof.
  induction s as [|x rest IH]; simpl; [lia|].
  destruct (String.eqb x v); [lia|].
  destruct (Z.eqb_spec (slices_Index rest v) (-1)); lia.
Qed.

Lemma slices_Index_absent s v : slices_Index s v = -1 <-> v ∉ s.
Proof.
  induction s as [|x rest IH]; simpl.
  - split; [intros _; apply not_elem_of_nil|done].
  - rewrite not_elem_of_cons. destruct (String.eqb_spec x v) as [->|Hne].
    + split; [lia|tauto].
    + pose proof (slices_Index_lower rest v).
      destruct (Z.eqb_spec (slices_Index rest v) (-1)) as [E|E].
      * split; [|done]. intros _. split; [done|]. by apply IH.
      * split; [lia|]. intros [_ Hin]. apply IH in Hin. done.
Qed.

Lemma slices_Contains_elem s v : slices_Contains s v = bool_decide (v ∈ s).
Proof.
  unfold slices_Contains. destruct (Z.eqb_spec (slices_Index s v) (-1)) as [E|E]; simpl.
  - apply slices_Index_absent in E. by rewrite bool_decide_false.
  - rewrite bool_decide_true; [done|].
    destruct (decide (v ∈ s)) as [|Hn]; [done|]. by apply slices_Index_absent in Hn.
Qed.

Lemma slices_Delete_first s v :
  (if negb (slices_Index s v =? -1)
   then slices_Delete s (slices_Index s v) (slices_Index s v + 1) else s)
  = remove_first v s.
Proof.
  induction s as [|x rest IH]; simpl; [done|].
  destruct (String.eqb x v); simpl.
  - unfold slices_Delete. simpl. by rewrite drop_0.
  - pose proof (slices_Index_lower rest v) as Hlo. revert IH.
    destruct (Z.eqb_spec (slices_Index rest v) (-1)) as [E|E]; simpl.
    + by intros <-.
    + destruct (Z.eqb_spec (slices_Index rest v + 1) (-1)) as [E'|_]; [lia|]. simpl.
      intros <-. unfold slices_Delete.
      replace (Z.to_nat (slices_Index rest v + 1 + 1))
        with (S (Z.to_nat (slices_Index rest v + 1))) by lia.
      replace (Z.to_nat (slices_Index rest v + 1))
        with (S (Z.to_nat (slices_Index rest v))) at 1 by lia.
      done.
Qed.

Lemma http1_protocols_only protos : http1_protocols protos = http1_only protos.
Proof.
  unfold http1_protocols, http1_only. rewrite slices_Delete_first, slices_Contains_elem.
  by destruct (bool_decide _).
Qed.

(** C7, counterexample.  In HTTP/1.1-only mode a list that already holds
    "http/1.1" behind another protocol is left in that order: "http/1.1" is
    present but not first.  And of a list that names "h2" twice only the
    first is dropped. *)
Lemma createSpecWithSpec_http11_not_first :
  createSpecWithSpec "h3" Examples.spdy_template false false Examples.spdy_store
    = (Examples.spdy_template, None, [ALPNExtension ["spdy/3.1"; "http/1.1"]])
  /\ head ["spdy/3.1"; "http/1.1"] <> Some "http/1.1"
  /\ createSpecWithSpec "h3" Examples.spdy_template false false
       [ALPNExtension ["h2"; "h2"]]
     = (Examples.spdy_template, None, [ALPNExtension ["http/1.1"; "h2"]]).
Proof. split; [reflexivity|]. split; [discriminate|reflexivity]. Qed.

(** C7, amended.  [createSpecWithSpec] returns the spec it was given and
    no error, and touches at most the first ALPN extension of the spec: in
    HTTP/3 mode its list becomes the single HTTP/3 identifier; in
    HTTP/1.1-only mode the first "h2" is dropped and "http/1.1" is put in
    front unless the list already holds it (then it stays where it is), so
    "http/1.1" is always present afterwards; in the default mode, and when
    the spec has no ALPN extension, the store is unchanged. *)
Theorem createSpecWithSpec_rewrites_ALPN :
  forall NextProtoH3 spec (h2 h3 : bool) h,
    let r := createSpecWithSpec NextProtoH3 spec h2 h3 h in
    fst (fst r) = spec
    /\ snd (fst r) = None
    /\ snd r = (if h3 then with_first_ALPN (fun _ => [NextProtoH3]) (Extensions spec) h
               else if h2 then h
               else with_first_ALPN http1_only (Extensions spec) h)
    /\ (forall f, with_first_ALPN f (Extensions spec) h =
          match first_ALPN (Extensions spec) h with
          | Some (ext, protos) => <[ext := ALPNExtension (f protos)]> h
          | None => h
          end)
    /\ (forall protos,
          http1_only protos =
            (let p := remove_first "h2" protos in
             if bool_decide ("http/1.1" ∈ p) then p else "http/1.1" :: p)
          /\ "http/1.1" ∈ http1_only protos)
    /\ http1_only ["h2"; "http/1.1"] = ["http/1.1"].
Proof.
  intros NextProtoH3 spec h2 h3 h r. unfold r, createSpecWithSpec.
  split; [by destruct h3, h2|]. split; [by destruct h3, h2|].
  split; [|split; [done|split; [|done]]].
  - destruct h3, h2; simpl; try done; rewrite rewrite_first_ALPN_with; [done..|].
    unfold with_first_ALPN. destruct (first_ALPN _ _) as [[ext protos]|]; [|done].
    by rewrite http1_protocols_only.
  - intros protos. split; [done|]. unfold http1_only.
    case_bool_decide; [done|]. by left.
Qed.

(** ** The spec builder *)

(** C9, counterexample.  Given a preset identifier, the builder returns
    what the preset table returns; with a table whose entry leaves
    [GetSessionID] unset, so does the result. *)
Lemma CreateSpecWithClientHello_preset_unhashed :
  let r := Builder.CreateSpecWithClientHello nat nat Examples.accepting_parser
             Examples.opaque_ext Examples.preset_without_hash Examples.some_hash
             (Builder.ArgClientHelloID nat 0%nat) [] in
  snd (fst r) = None
  /\ GetSessionID (fst (fst r)) = None
  /\ GetSessionID (fst (fst r)) <> Some Examples.some_hash.
Proof. repeat split. discriminate. Qed.

(** C9, amended.  For a raw capture and for a hex capture, whenever the
    builder returns without error the spec's [GetSessionID] is SHA-256
    ([sha256.Sum256]); for a preset identifier the builder returns the
    result of [utls.UTLSIdToSpec] as it is, session-id function included. *)
Theorem CreateSpecWithClientHello_session_id :
  forall ClientHelloID Extension decodeClientHello utlsExt UTLSIdToSpec Sum256 h,
    let build := Builder.CreateSpecWithClientHello ClientHelloID Extension
                   decodeClientHello utlsExt UTLSIdToSpec Sum256 in
    (forall value spec h',
       build (Builder.ArgBytes ClientHelloID value) h = (spec, None, h') ->
       GetSessionID spec = Some Sum256)
    /\ (forall value spec h',
         build (Builder.ArgString ClientHelloID value) h = (spec, None, h') ->
         GetSessionID spec = Some Sum256)
    /\ (forall value,
         build (Builder.ArgClientHelloID ClientHelloID value) h =
           (fst (fst (UTLSIdToSpec value h)),
            Builder.ErrPreset <$> snd (fst (UTLSIdToSpec value h)),
            snd (UTLSIdToSpec value h))).
Proof.
  intros ClientHelloID Extension decodeClientHello utlsExt UTLSIdToSpec Sum256 h build.
  unfold build, Builder.CreateSpecWithClientHello, Builder.spec_of_ClientHello.
  split; [|split].
  - intros value spec h'. destruct (decodeClientHello value) as [info [e|]]; [done|].
    by intros [= <- <-].
  - intros value spec h'. destruct (hex_DecodeString value) as [v|e]; [|done].
    destruct (decodeClientHello v) as [info [e|]]; [done|]. by intros [= <- <-].
  - intros value. by destruct (UTLSIdToSpec value h) as [[spec err] h'].
Qed.

Lemma CreateSpecWithClientHello_session_id_witness :
  (let r := Builder.CreateSpecWithClientHello nat nat Examples.accepting_parser
              Examples.opaque_ext Examples.preset_without_hash Examples.some_hash
              (Builder.ArgBytes nat [22; 3; 1]) [] in
   snd (fst r) = None /\ GetSessionID (fst (fst r)) = Some Examples.some_hash)
  /\ (let r := Builder.CreateSpecWithClientHello nat nat Examples.accepting_parser
               Examples.opaque_ext Examples.preset_without_hash Examples.some_hash
               (Builder.ArgString nat "160301") [] in
      snd (fst r) = None /\ GetSessionID (fst (fst r)) = Some Examples.some_hash).
Proof.
  pose proof (CreateSpecWithClientHello_session_id nat nat Examples.accepting_parser
                Examples.opaque_ext Examples.preset_without_hash Examples.some_hash [])
    as (Hbytes & Hhex & _).
  split; (split; [reflexivity|]).
  - eapply (Hbytes [22; 3; 1]). reflexivity.
  - eapply (Hhex "160301"). reflexivity.
Defined.

(* --------------------------------------------------------------------- *)
(** ** The HTTP/2 fingerprint codec *)

(** ** Strings *)

Lemma bytes_all_cons P c s : bytes_all P (String c s) = P c && bytes_all P s.
Proof. done. Qed.

Lemma bytes_all_app P a b : bytes_all P (a ++ b) = bytes_all P a && bytes_all P b.
Proof.
  induction a as [|c a IH]; [done|].
  change (String c a ++ b) with (String c (a ++ b)).
  rewrite !bytes_all_cons, IH. by rewrite andb_assoc.
Qed.

Lemma bytes_all_impl (P Q : ascii -> bool) s :
  (forall c, P c = true -> Q c = true) -> bytes_all P s = true -> bytes_all Q s = true.
Proof.
  intros HPQ. induction s as [|c s IH]; [done|].
  rewrite !bytes_all_cons, !andb_true_iff. intros [? ?]. auto.
Qed.

Lemma bytes_all_Join P sep toks :
  bytes_all P sep = true -> Forall (fun t => bytes_all P t = true) toks ->
  bytes_all P (Join toks sep) = true.
Proof.
  intros Hsep. induction 1 as [|x rest Hx Hrest IH]; [done|].
  simpl. destruct rest as [|y rest]; [done|].
  rewrite !bytes_all_app, Hx, Hsep. simpl. exact IH.
Qed.

Lemma Split_no_sep sep s : bytes_all (differs sep) s = true -> Split s sep = [s].
Proof.
  induction s as [|c s IH]; [done|].
  rewrite bytes_all_cons, andb_true_iff. unfold differs at 1. intros [Hc Hs].
  simpl. apply negb_true_iff in Hc. rewrite Hc, IH by done. done.
Qed.

Lemma Split_app sep x y :
  bytes_all (differs sep) x = true ->
  Split (x ++ String sep y) sep = x :: Split y sep.
Proof.
  induction x as [|c x IH]; simpl.
  - intros _. by rewrite Ascii.eqb_refl.
  - rewrite bytes_all_cons, andb_true_iff. unfold differs at 1. intros [Hc Hx].
    apply negb_true_iff in Hc. rewrite Hc, IH by done. done.
Qed.

Lemma Split_Join sep toks :
  toks <> [] -> Forall (fun t => bytes_all (differs sep) t = true) toks ->
  Split (Join toks (String sep "")) sep = toks.
Proof.
  intros Hne Hall. induction Hall as [|x rest Hx Hrest IH]; [done|].
  simpl. destruct rest as [|y rest].
  - by apply Split_no_sep.
  - change (x ++ String sep "" ++ Join (y :: rest) (String sep ""))
      with (x ++ String sep (Join (y :: rest) (String sep ""))).
    rewrite Split_app by done. f_equal. by apply IH.
Qed.

(** ** Decimal numbers *)

Lemma digit_val_char d : 0 <= d < 10 -> digit_val (digit_char d) = Some d.
Proof.
  intros Hd.
  assert (d = 0 \/ d = 1 \/ d = 2 \/ d = 3 \/ d = 4 \/ d = 5 \/ d = 6 \/ d = 7
          \/ d = 8 \/ d = 9) as Hcases by lia.
  repeat (destruct Hcases as [->|Hcases]; [done|]). by subst.
Qed.

Lemma is_digit_char d : 0 <= d < 10 -> is_digit (digit_char d) = true.
Proof.
  intros Hd. unfold is_digit. rewrite digit_val_char by done.
  by apply bool_decide_eq_true.
Qed.

Lemma itoa_loop_parse fuel : forall n acc,
  0 <= n < 10 ^ Z.of_nat fuel ->
  parse_digits (itoa_loop fuel n acc) 0 = parse_digits acc n.
Proof.
  induction fuel as [|fuel IH]; intros n acc Hn.
  - simpl in *. by replace n with 0 by lia.
  - simpl. assert (0 <= n mod 10 < 10) by (apply Z.mod_pos_bound; lia).
    destruct (Z.eqb_spec (n / 10) 0) as [E|E].
    + simpl. rewrite digit_val_char by done. f_equal.
      pose proof (Z.div_mod n 10). lia.
    + rewrite IH.
      * simpl. rewrite digit_val_char by done. f_equal.
        pose proof (Z.div_mod n 10). lia.
      * rewrite Nat2Z.inj_succ, Z.pow_succ_r in Hn by lia.
        split; [apply Z.div_pos; lia|]. apply Z.div_lt_upper_bound; lia.
Qed.

Lemma itoa_loop_digits fuel : forall n acc,
  bytes_all is_digit acc = true -> bytes_all is_digit (itoa_loop fuel n acc) = true.
Proof.
  induction fuel as [|fuel IH]; intros n acc Hacc; [done|].
  simpl. assert (0 <= n mod 10 < 10) by (apply Z.mod_pos_bound; lia).
  assert (bytes_all is_digit (String (digit_char (n mod 10)) acc) = true).
  { by rewrite bytes_all_cons, is_digit_char, Hacc. }
  destruct (n / 10 =? 0); [done|]. by apply IH.
Qed.

Lemma itoa_loop_nonempty fuel : forall n acc,
  acc <> "" -> itoa_loop fuel n acc <> "".
Proof.
  induction fuel as [|fuel IH]; intros n acc Hacc; [done|].
  simpl. destruct (n / 10 =? 0); [done|]. by apply IH.
Qed.

Lemma Itoa_digits n : bytes_all is_digit (Itoa n) = true.
Proof. by apply itoa_loop_digits. Qed.

Lemma itoa_loop_S_nonempty fuel n acc : itoa_loop (S fuel) n acc <> "".
Proof.
  simpl. destruct (n / 10 =? 0); [done|]. by apply itoa_loop_nonempty.
Qed.

Lemma Itoa_nonempty n : Itoa n <> "".
Proof. apply (itoa_loop_S_nonempty 19). Qed.

Lemma is_digit_not_sign c :
  is_digit c = true -> Ascii.eqb c "+" = false /\ Ascii.eqb c "-" = false.
Proof.
  unfold is_digit, digit_val. intros H. apply bool_decide_eq_true in H.
  destruct (_ && _) eqn:E; [|by destruct H].
  apply andb_true_iff in E as [H1 H2]. apply Z.leb_le in H1, H2.
  split; apply Ascii.eqb_neq; intros ->; vm_compute in H1; done.
Qed.

Lemma split_sign_digits s :
  bytes_all is_digit s = true -> split_sign s = (false, s).
Proof.
  destruct s as [|c s]; [done|].
  rewrite bytes_all_cons, andb_true_iff. intros [Hc _].
  apply is_digit_not_sign in Hc as [H1 H2]. simpl. by rewrite H1, H2.
Qed.

Lemma Atoi_Itoa n : 0 <= n <= maxInt -> Atoi (Itoa n) = Some n.
Proof.
  intros Hn. unfold Atoi. rewrite split_sign_digits by apply Itoa_digits.
  pose proof (Itoa_nonempty n) as Hne.
  destruct (Itoa n) as [|c r] eqn:E; [done|]. rewrite <- E.
  unfold Itoa. rewrite itoa_loop_parse by (unfold maxInt in Hn; simpl; lia).
  simpl. unfold minInt, maxInt in *.
  rewrite (proj2 (Z.leb_le _ _)), (proj2 (Z.leb_le _ _)) by lia. done.
Qed.

(** ** The codec on the encoder's output *)

Import H2.

Lemma is_digit_differs sep c :
  is_digit sep = false -> is_digit c = true -> differs sep c = true.
Proof.
  intros Hsep Hc. unfold differs. apply negb_true_iff, Ascii.eqb_neq.
  intros ->. congruence.
Qed.

Lemma Itoa_differs sep n : is_digit sep = false -> bytes_all (differs sep) (Itoa n) = true.
Proof.
  intros Hsep. eapply bytes_all_impl; [|apply Itoa_digits].
  intros c. by apply is_digit_differs.
Qed.

Lemma setting_token_differs sep s :
  is_digit sep = false -> sep <> ":"%char ->
  bytes_all (differs sep) (setting_token s) = true.
Proof.
  intros Hd Hc. unfold setting_token.
  assert (Hcolon : bytes_all (differs sep) ":" = true).
  { rewrite bytes_all_cons. unfold differs.
    rewrite (proj2 (Ascii.eqb_neq _ _)); [done|congruence]. }
  by rewrite !bytes_all_app, !Itoa_differs, Hcolon by done.
Qed.

Lemma Split_setting_token s :
  Split (setting_token s) ":" = [Itoa (Id s); Itoa (Val s)].
Proof.
  unfold setting_token.
  change (Itoa (Id s) ++ ":" ++ Itoa (Val s))
    with (Itoa (Id s) ++ String ":" (Itoa (Val s))).
  rewrite Split_app by (by apply Itoa_differs).
  by rewrite Split_no_sep by (by apply Itoa_differs).
Qed.

Lemma parse_settings_tokens ss : forall acc,
  Forall wf_Setting ss ->
  parse_settings (map setting_token ss) acc = Ok (acc ++ ss)%list.
Proof.
  induction ss as [|s ss IH]; intros acc Hwf; simpl.
  - by rewrite app_nil_r.
  - apply Forall_cons in Hwf as [[Hid Hval] Hwf].
    unfold is_uint16, is_uint32 in *.
    rewrite Split_setting_token.
    rewrite !Atoi_Itoa by (unfold maxInt; lia).
    unfold to_uint16, to_uint32. rewrite !Z.mod_small by lia.
    rewrite IH by done. rewrite <- app_assoc. by destruct s.
Qed.

Lemma omap_acc {A B} (f : A -> option B) l : forall acc g,
  (forall xs acc, g xs acc =
     match xs with
     | [] => acc
     | x :: rest => match f x with Some y => g rest (acc ++ [y])%list | None => g rest acc end
     end) ->
  g l acc = (acc ++ omap f l)%list.
Proof.
  induction l as [|x l IH]; intros acc g Hg; rewrite Hg; simpl.
  - by rewrite app_nil_r.
  - destruct (f x); rewrite IH by done; [by rewrite <- app_assoc|done].
Qed.

Lemma Fp_heads_omap (ToLower : string -> string) (hs : list string) acc :
  Fp_heads ToLower hs acc = (acc ++ omap (fun h => head_letter (ToLower h)) hs)%list.
Proof.
  apply (omap_acc (fun h => head_letter (ToLower h)) hs acc (Fp_heads ToLower)).
  by intros [|x xs] acc'.
Qed.

Lemma parse_heads_omap hkeys acc :
  parse_heads hkeys acc = (acc ++ omap letter_head hkeys)%list.
Proof.
  apply (omap_acc letter_head hkeys acc parse_heads). by intros [|x xs] acc'.
Qed.

Lemma head_letter_cases x l :
  head_letter x = Some l ->
  (x = ":method" /\ l = "m") \/ (x = ":authority" /\ l = "a")
  \/ (x = ":scheme" /\ l = "s") \/ (x = ":path" /\ l = "p").
Proof.
  unfold head_letter.
  destruct (String.eqb_spec x ":method") as [->|?]; [intros [= <-]; tauto|].
  destruct (String.eqb_spec x ":authority") as [->|?]; [intros [= <-]; tauto|].
  destruct (String.eqb_spec x ":scheme") as [->|?]; [intros [= <-]; tauto|].
  destruct (String.eqb_spec x ":path") as [->|?]; [intros [= <-]; tauto|].
  done.
Qed.


Lemma letters_differ (ToLower : string -> string) (hs : list string) sep :
  sep = ","%char \/ sep = "|"%char ->
  Forall (fun t => bytes_all (differs sep) t = true)
         (omap (fun h => head_letter (ToLower h)) hs).
Proof.
  intros Hsep. induction hs as [|h hs IH]; simpl; [constructor|].
  destruct (head_letter (ToLower h)) as [l|] eqn:E; simpl; [|done].
  constructor; [|done].
  apply head_letter_cases in E as [[_ ->]|[[_ ->]|[[_ ->]|[_ ->]]]];
    destruct Hsep as [->| ->]; reflexivity.
Qed.

Lemma omap_cons_match {A B} (f : A -> option B) x l :
  omap f (x :: l) = match f x with Some y => y :: omap f l | None => omap f l end.
Proof. done. Qed.

Lemma letter_of_head x l : head_letter x = Some l -> letter_head l = Some x.
Proof.
  intros E. by apply head_letter_cases in E as [[-> ->]|[[-> ->]|[[-> ->]|[-> ->]]]].
Qed.

Lemma pseudo_name_head (ToLower : string -> string) h :
  pseudo_name ToLower h =
    match head_letter (ToLower h) with Some _ => Some (ToLower h) | None => None end.
Proof.
  unfold pseudo_name, head_letter.
  destruct (String.eqb_spec (ToLower h) ":method") as [->|?]; [done|].
  destruct (String.eqb_spec (ToLower h) ":authority") as [->|?]; [done|].
  destruct (String.eqb_spec (ToLower h) ":scheme") as [->|?]; [done|].
  destruct (String.eqb_spec (ToLower h) ":path") as [->|?]; done.
Qed.

(** Decoding the letters the encoder wrote gives back the pseudo-headers,
    in their lower-case spelling. *)
Lemma decode_letters (ToLower : string -> string) (hs : list string) :
  omap letter_head (omap (fun h => head_letter (ToLower h)) hs)
  = pseudo_headers ToLower hs.
Proof.
  unfold pseudo_headers. induction hs as [|h hs IH]; [done|].
  rewrite (omap_cons_match (pseudo_name ToLower)), pseudo_name_head.
  rewrite (omap_cons_match (fun h => head_letter (ToLower h))).
  destruct (head_letter (ToLower h)) as [l|] eqn:E; [|exact IH].
  by rewrite omap_cons_match, (letter_of_head _ _ E), IH.
Qed.

Lemma Split_letters (ToLower : string -> string) (hs : list string) :
  parse_heads (Split (Join (Fp_heads ToLower hs []) ",") ",") []
  = pseudo_headers ToLower hs.
Proof.
  rewrite Fp_heads_omap, parse_heads_omap. simpl.
  destruct (omap (fun h => head_letter (ToLower h)) hs) as [|l ls] eqn:E.
  - simpl. rewrite <- decode_letters, E. done.
  - rewrite Split_Join; [|done|].
    + rewrite <- E. apply decode_letters.
    + rewrite <- E. apply letters_differ. by left.
Qed.

Section RoundTrip.
Variable ToLower : string -> string.
Variable p : H2Spec.
Hypothesis Hwf : wf_H2Spec p.
Hypothesis Hsettings : InitialSetting p <> [].

Lemma Split_Fp :
  Split (Fp ToLower p) "|" =
    [ Join (map setting_token (InitialSetting p)) ",";
      Itoa (ConnFlow p); "0";
      Join (Fp_heads ToLower (OrderHeaders p) []) "," ].
Proof.
  unfold Fp. apply (Split_Join "|"); [done|].
  repeat constructor.
  - apply bytes_all_Join; [done|]. apply Forall_map, Forall_forall.
    intros s _. by apply setting_token_differs.
  - by apply Itoa_differs.
  - rewrite Fp_heads_omap. apply bytes_all_Join; [done|].
    apply letters_differ. by right.
Qed.

Lemma decode_Fp :
  CreateH2SpecWithStr (Fp ToLower p) =
    Ok {| InitialSetting := InitialSetting p;
          ConnFlow := ConnFlow p;
          OrderHeaders := pseudo_headers ToLower (OrderHeaders p);
          Priority_ := Priority_zero |}.
Proof.
  destruct Hwf as [Hs Hflow]. unfold CreateH2SpecWithStr. rewrite Split_Fp.
  rewrite (Split_Join ","); [|by destruct (InitialSetting p)|].
  - rewrite parse_settings_tokens by done. simpl.
    unfold is_uint32 in Hflow. rewrite Atoi_Itoa by (unfold maxInt; lia).
    unfold to_uint32. rewrite Z.mod_small by lia.
    by rewrite Split_letters.
  - apply Forall_map, Forall_forall. intros s _. by apply setting_token_differs.
Qed.
End RoundTrip.

Lemma encode_pseudo_headers (ToLower : string -> string) (hs : list string) :
  (forall name, name ∈ [":method"; ":authority"; ":scheme"; ":path"] -> ToLower name = name) ->
  Fp_heads ToLower (pseudo_headers ToLower hs) [] = Fp_heads ToLower hs [].
Proof.
  intros Hfix. rewrite !Fp_heads_omap. f_equal. unfold pseudo_headers.
  induction hs as [|h hs IH]; [done|].
  rewrite (omap_cons_match (pseudo_name ToLower)), pseudo_name_head.
  rewrite (omap_cons_match _ h).
  destruct (head_letter (ToLower h)) as [l|] eqn:E; [|exact IH].
  rewrite omap_cons_match.
  assert (Hin : ToLower h ∈ [":method"; ":authority"; ":scheme"; ":path"]).
  { apply head_letter_cases in E as [[-> _]|[[-> _]|[[-> _]|[-> _]]]];
      set_solver. }
  by rewrite (Hfix _ Hin), E, IH.
Qed.

(** ** Which inputs the decoder rejects *)


Lemma digits_from_cons acc c s :
  digits_from acc (String c s) = digits_from (10 * acc + default 0 (digit_val c)) s.
Proof. done. Qed.


Lemma parse_digits_all s : forall acc,
  parse_digits s acc = if bytes_all is_digit s then Some (digits_from acc s) else None.
Proof.
  induction s as [|c s IH]; intros acc; [done|].
  rewrite bytes_all_cons, digits_from_cons.
  change (parse_digits (String c s) acc)
    with (match digit_val c with
          | Some d => parse_digits s (10 * acc + d)
          | None => None
          end).
  unfold is_digit at 1. destruct (digit_val c) as [d|].
  - rewrite bool_decide_true by (by eexists). apply IH.
  - by rewrite bool_decide_false by (by intros [? [=]]).
Qed.

Lemma Atoi_int_numeric s :
  Atoi s = if int_numeric s then Some (numeric_value s) else None.
Proof.
  unfold Atoi, int_numeric, numeric, numeric_value.
  destruct (split_sign s) as [neg body].
  destruct body as [|c r]; [done|].
  rewrite parse_digits_all. unfold all_digits.
  destruct (bytes_all is_digit (String c r)); [|done].
  change (negb (String c r =? "")%string) with true. simpl andb. done.
Qed.

Lemma parse_settings_failed toks : forall acc,
  failed (parse_settings toks acc) = existsb (fun tok => negb (int_setting tok)) toks.
Proof.
  induction toks as [|tok toks IH]; intros acc; [done|].
  simpl. unfold int_setting.
  destruct (Split tok ":") as [|k [|v [|? ?]]]; try done.
  rewrite !Atoi_int_numeric.
  destruct (int_numeric k); [|done].
  destruct (int_numeric v); [|done]. simpl. apply IH.
Qed.

Lemma CreateH2SpecWithStr_failed s :
  failed (CreateH2SpecWithStr s) =
    match Split s "|" with
    | [t0; t1; _; _] =>
        existsb (fun tok => negb (int_setting tok)) (Split t0 ",") || negb (int_numeric t1)
    | _ => true
    end.
Proof.
  unfold CreateH2SpecWithStr.
  destruct (Split s "|") as [|t0 [|t1 [|t2 [|t3 [|? ?]]]]]; try done.
  rewrite <- parse_settings_failed with (acc := []), Atoi_int_numeric.
  destruct (parse_settings (Split t0 ",") []); [|done].
  by destruct (int_numeric t1).
Qed.

(** C6, counterexample.  The input has four fields, its one settings token
    splits on ':' into two numeric parts and its flow field is numeric, yet
    the decoder returns an error: the value 99999999999999999999 does not
    fit [int], and [strconv.Atoi] refuses it. *)
Lemma CreateH2SpecWithStr_rejects_large_number :
  let s := "1:99999999999999999999|15663105|0|m,a,s,p" in
  Split s "|" = ["1:99999999999999999999"; "15663105"; "0"; "m,a,s,p"]
  /\ Split "1:99999999999999999999" "," = ["1:99999999999999999999"]
  /\ numeric_setting "1:99999999999999999999" = true
  /\ numeric "15663105" = true
  /\ CreateH2SpecWithStr s = Err (ErrAtoi "99999999999999999999").
Proof. repeat split. Qed.

(** C6, amended.  [CreateH2SpecWithStr] returns an error exactly when the
    input does not split on '|' into four fields, or some token of the
    settings field does not split on ':' into two numeric parts that fit
    Go's [int], or the flow field is not numeric or does not fit [int].
    Numeric means an optional sign followed by one or more decimal digits;
    the numeric strings that fit [int] are exactly those [strconv.Atoi]
    parses, to the number they denote.
    A letter of the fourth field other than m, a, s, p adds no header and
    raises no error, and the third field has no influence on the result. *)
Theorem CreateH2SpecWithStr_errors :
  forall s,
    let fields := Split s "|" in
    (failed (CreateH2SpecWithStr s) = true
       <-> length fields <> 4%nat
           \/ (exists tok, tok ∈ Split (nth 0 fields "") "," /\ int_setting tok = false)
           \/ int_numeric (nth 1 fields "") = false)
    /\ (forall tok, int_setting tok =
          match Split tok ":" with
          | [k; v] => int_numeric k && int_numeric v
          | _ => false
          end)
    /\ (forall t, int_numeric t =
          numeric t && (minInt <=? numeric_value t) && (numeric_value t <=? maxInt))
    /\ (forall t, Atoi t = if int_numeric t then Some (numeric_value t) else None)
    /\ (forall hkeys acc, parse_heads hkeys acc = (acc ++ omap letter_head hkeys)%list)
    /\ (forall hkey, hkey ∉ ["m"; "a"; "s"; "p"] -> letter_head hkey = None)
    /\ (forall s' t0 t1 t2 t2' t3,
          fields = [t0; t1; t2; t3] -> Split s' "|" = [t0; t1; t2'; t3] ->
          CreateH2SpecWithStr s' = CreateH2SpecWithStr s).
Proof.
  intros s fields. split; [|split; [done|split; [done|split; [|split; [|split]]]]].
  - rewrite CreateH2SpecWithStr_failed. fold fields.
    destruct fields as [|t0 [|t1 [|t2 [|t3 [|? ?]]]]]; simpl;
      try (split; [intros _; left; lia|done]).
    rewrite orb_true_iff, negb_true_iff, existsb_exists. split.
    + intros [(tok & Hin & Hbad)|Hnum]; [|tauto]. right. left. exists tok.
      split; [by apply list_elem_of_In|by apply negb_true_iff].
    + intros [Hlen|[(tok & Hin & Hbad)|Hnum]]; [done| |tauto]. left. exists tok.
      split; [by apply list_elem_of_In|by apply negb_true_iff].
  - apply Atoi_int_numeric.
  - apply parse_heads_omap.
  - intros hkey Hout. unfold letter_head.
    destruct (String.eqb_spec hkey "m") as [->|?]; [set_solver|].
    destruct (String.eqb_spec hkey "a") as [->|?]; [set_solver|].
    destruct (String.eqb_spec hkey "s") as [->|?]; [set_solver|].
    destruct (String.eqb_spec hkey "p") as [->|?]; [set_solver|done].
  - intros s' t0 t1 t2 t2' t3 Hs Hs'. unfold CreateH2SpecWithStr.
    fold fields. by rewrite Hs, Hs'.
Qed.

Lemma CreateH2SpecWithStr_errors_witness :
  failed (CreateH2SpecWithStr "1:65536,2:x|15663105|0|m,a,s,p") = true
  /\ letter_head "z" = None
  /\ CreateH2SpecWithStr "1:65536|15663105|reserved|m,z,p"
     = CreateH2SpecWithStr "1:65536|15663105|0|m,z,p".
Proof.
  destruct (CreateH2SpecWithStr_errors "1:65536,2:x|15663105|0|m,a,s,p")
    as (Herr & _ & _ & _ & _ & Hskip & _).
  destruct (CreateH2SpecWithStr_errors "1:65536|15663105|0|m,z,p")
    as (_ & _ & _ & _ & _ & _ & Hthird).
  split; [|split].
  - apply Herr. right. left. exists "2:x". split; [|reflexivity].
    vm_compute. apply list_elem_of_In. right. left. reflexivity.
  - apply Hskip. intros Hin. apply list_elem_of_In in Hin. vm_compute in Hin.
    repeat (destruct Hin as [Hin|Hin]; [discriminate Hin|]). exact Hin.
  - eapply Hthird; reflexivity.
Defined.

(** C2, counterexample.  The encoder's output for a spec without settings,
    [H2Spec{}], is "|0|0|"; the decoder rejects it: its empty settings field
    is one empty token, which does not split into id and value. *)
Lemma Fp_of_no_settings_rejected :
  Fp ToLowerASCII H2Spec_zero = "|0|0|"
  /\ CreateH2SpecWithStr (Fp ToLowerASCII H2Spec_zero) = Err ErrSetting.
Proof. split; reflexivity. Qed.

(** C2, amended.  For every [H2Spec] with at least one setting (and fields
    within their Go types), decoding its fingerprint succeeds and gives the
    same settings in order, the same ConnFlow, and the pseudo-headers
    :method, :authority, :scheme, :path of the header list in order, in
    lower case; encoding the decoded value gives the fingerprint back.
    [ToLower] is any case folding that leaves the four lower-case names
    alone.  Decoding and re-encoding
    "1:65536,2:0,4:6291456,6:262144|15663105|0|m,a,s,p" yields that string. *)
Theorem H2Spec_round_trip :
  forall (ToLower : string -> string) (p : H2Spec),
    (forall name, name ∈ [":method"; ":authority"; ":scheme"; ":path"] ->
                  ToLower name = name) ->
    wf_H2Spec p ->
    InitialSetting p <> [] ->
    let q := {| InitialSetting := InitialSetting p;
                ConnFlow := ConnFlow p;
                OrderHeaders := pseudo_headers ToLower (OrderHeaders p);
                Priority_ := Priority_zero |} in
    CreateH2SpecWithStr (Fp ToLower p) = Ok q
    /\ Fp ToLower q = Fp ToLower p
    /\ exists q0,
         CreateH2SpecWithStr "1:65536,2:0,4:6291456,6:262144|15663105|0|m,a,s,p" = Ok q0
         /\ Fp ToLower q0 = "1:65536,2:0,4:6291456,6:262144|15663105|0|m,a,s,p".
Proof.
  intros ToLower p Hfix Hwf Hne q. split; [|split].
  - by apply decode_Fp.
  - unfold Fp, q. simpl. by rewrite encode_pseudo_headers.
  - eexists. split; [reflexivity|].
    unfold Fp. simpl. rewrite !Hfix by set_solver. reflexivity.
Qed.

Lemma H2Spec_round_trip_witness :
  let p := DefaultH2Spec [":Method"; "Host"; ":authority"; ":scheme"; ":path"; "Cookie"] in
  CreateH2SpecWithStr (Fp ToLowerASCII p)
    = Ok {| InitialSetting := InitialSetting p;
            ConnFlow := 15663105;
            OrderHeaders := [":method"; ":authority"; ":scheme"; ":path"];
            Priority_ := Priority_zero |}.
Proof.
  refine (proj1 (H2Spec_round_trip ToLowerASCII
            (DefaultH2Spec [":Method"; "Host"; ":authority"; ":scheme"; ":path"; "Cookie"])
            _ _ _)).
  - intros name Hin. apply list_elem_of_In in Hin. simpl in Hin.
    repeat (destruct Hin as [<-|Hin]; [reflexivity|]). destruct Hin.
  - split; [|vm_compute; split; congruence].
    repeat constructor; vm_compute; congruence.
  - discriminate.
Defined.

(* --------------------------------------------------------------------- *)
(** ** Concurrent callers of the registry *)

Import Interleaving.

Section SameGroup.
Variable key : string.
Variable G : Z.

Lemma same_group_init n : same_group_inv key G (replicate n (start key G), empty_client).
Proof.
  split; [|split; [|split]]; simpl.
  - intros j t Hj. apply lookup_replicate in Hj as [-> _]. simpl.
    split; [done|]. split; [done|]. by intros p [|].
  - intros k p H. by rewrite lookup_empty in H.
  - constructor.
  - intros (j & t & Hj & Hpc). apply lookup_replicate in Hj as [-> _]. done.
Qed.

Lemma same_group_step cfg i :
  same_group_inv key G cfg -> same_group_inv key G (sched_step cfg i).
Proof.
  destruct cfg as [ts s]. intros Hinv.
  pose proof Hinv as (Hts & Hmap & Hrec & Hprog).
  unfold sched_step. simpl in Hts, Hmap, Hrec, Hprog. simpl fst. simpl snd.
  destruct (ts !! i) as [t|] eqn:Hi; [|exact Hinv].
  destruct (Hts i t Hi) as (Hkey & Hval & Hptr).
  assert (Hlen : (i < length ts)%nat) by (by eapply lookup_lt_Some).
  (* threads other than [i] are as before *)
  assert (Hother : forall t' j u, <[i := t']> ts !! j = Some u ->
            (j = i /\ u = t') \/ (j <> i /\ ts !! j = Some u)).
  { intros t' j u Hj. destruct (decide (j = i)) as [->|Hne].
    - rewrite list_lookup_insert_eq in Hj by done. left. by inversion Hj.
    - rewrite list_lookup_insert_ne in Hj by done. by right. }
  (* a caller past its [Load] and not at [Store] leaves the progress
     clause as it is *)
  assert (Hkeep : t_pc t <> AtLoad -> t_pc t <> AtStore -> forall t',
            is_Some (sh_map s !! key)
            \/ exists j u, <[i := t']> ts !! j = Some u /\ t_pc u = AtStore).
  { intros Hn1 Hn2 t'. destruct Hprog as [|(j & u & Hj & Hu)]; [by exists i, t|by left|].
    right. exists j, u. split; [|done]. rewrite list_lookup_insert_ne; [done|].
    intros <-. rewrite Hi in Hj. by inversion Hj; subst. }
  unfold step, same_group_inv. destruct (t_pc t) as [|p|p| |c] eqn:Hpc.
  - (* Load *)
    rewrite Hkey. destruct (sh_map s !! key) as [p|] eqn:Hload; simpl.
    + split; [|split; [done|split; [done|]]].
      * intros j u Hj. apply Hother in Hj as [[-> ->]|[Hne Hj]]; [|exact (Hts j u Hj)].
        simpl. split; [done|]. split; [done|].
        intros p' [[= <-]|[=]]. by eapply Hmap.
      * intros _. left. by eexists.
    + split; [|split; [done|split; [done|]]].
      * intros j u Hj. apply Hother in Hj as [[-> ->]|[Hne Hj]]; [|exact (Hts j u Hj)].
        simpl. split; [done|]. split; [done|]. by intros p' [[=]|[=]].
      * intros _. right. exists i, (at_pc t AtStore). simpl.
        by rewrite list_lookup_insert_eq by done.
  - (* Has *)
    specialize (Hkeep ltac:(done) ltac:(done)).
    case_bool_decide; simpl.
    + split; [|split; [done|split; [done|]]].
      * intros j u Hj. apply Hother in Hj as [[-> ->]|[Hne Hj]]; [|exact (Hts j u Hj)].
        simpl. split; [done|]. split; [done|]. by intros p' [[=]|[=]].
      * intros _. apply Hkeep.
    + split; [|split; [done|split; [done|]]].
      * intros j u Hj. apply Hother in Hj as [[-> ->]|[Hne Hj]]; [|exact (Hts j u Hj)].
        simpl. split; [done|]. split; [done|].
        intros p' [[=]|[= <-]]. apply Hptr. by left.
      * intros _. apply Hkeep.
  - (* Add *)
    simpl. split; [|split; [|split]].
    + intros j u Hj. rewrite length_alter.
      apply Hother in Hj as [[-> ->]|[Hne Hj]]; [|exact (Hts j u Hj)].
      simpl. split; [done|]. split; [done|]. by intros p' [[=]|[=]].
    + intros k p'. rewrite length_alter. apply Hmap.
    + rewrite Hval. apply Forall_lookup. intros q M Hq.
      rewrite list_lookup_alter in Hq. rewrite Forall_lookup in Hrec.
      case_decide; [|by eapply Hrec].
      destruct (sh_records s !! p) as [M0|] eqn:Hq0; simpl in Hq; [|done].
      inversion Hq; subst. rewrite (Hrec _ _ Hq0). set_solver.
    + intros _. by apply Hkeep.
  - (* Store *)
    simpl. split; [|split; [|split]].
    + intros j u Hj. rewrite length_app. simpl.
      apply Hother in Hj as [[-> ->]|[Hne Hj]].
      * simpl. split; [done|]. split; [done|]. by intros p' [[=]|[=]].
      * destruct (Hts j u Hj) as (? & ? & Hp). split; [done|]. split; [done|].
        intros p' Hp'. specialize (Hp p' Hp'). lia.
    + intros k p'. rewrite length_app. simpl. rewrite lookup_insert.
      case_decide; [intros [= <-]; lia|]. intros Hk. apply Hmap in Hk. lia.
    + apply Forall_app. split; [done|]. rewrite Hval. by constructor.
    + intros _. left. rewrite Hkey, lookup_insert_eq. by eexists.
  - (* already returned *)
    rewrite list_insert_id by done. exact Hinv.
Qed.

Lemma same_group_run schedule : forall cfg,
  same_group_inv key G cfg -> same_group_inv key G (run schedule cfg).
Proof.
  induction schedule as [|i schedule IH]; intros cfg Hinv; [done|].
  simpl. by apply IH, same_group_step.
Qed.

Lemma sched_step_length cfg i : length (fst (sched_step cfg i)) = length (fst cfg).
Proof.
  unfold sched_step. destruct (fst cfg !! i) as [t|]; [|done].
  destruct (step t (snd cfg)) as [t' s']. simpl. apply length_insert.
Qed.

Lemma run_length schedule : forall cfg,
  length (fst (run schedule cfg)) = length (fst cfg).
Proof.
  induction schedule as [|i schedule IH]; intros cfg; [done|].
  simpl. by rewrite IH, sched_step_length.
Qed.

(** X20.  When all [n >= 1] callers report the same group for the same new
    destination, then whatever the interleaving, once they have all
    returned the map holds a record for the destination with just that
    group. *)
Lemma same_group_final_memory n schedule :
  let final := run schedule (replicate n (start key G), empty_client) in
  n <> 0%nat ->
  Forall (fun t => is_Some (returned t)) (fst final) ->
  memory (snd final) key = {[G]}.
Proof.
  intros final Hn Hdone.
  pose proof (same_group_run schedule _ (same_group_init n)) as Hinv.
  fold final in Hinv. destruct Hinv as (Hts & Hmap & Hrec & Hprog).
  assert (Hlen : length (fst final) = n).
  { unfold final. rewrite run_length. simpl. apply length_replicate. }
  rewrite Forall_lookup in Hdone.
  destruct (fst final !! 0%nat) as [t0|] eqn:H0.
  2:{ apply lookup_ge_None in H0. lia. }
  destruct Hprog as [[p Hp]|(j & u & Hj & Hu)].
  - exists 0%nat, t0. split; [done|].
    destruct (Hdone _ _ H0) as [c Hc]. unfold returned in Hc.
    by destruct (t_pc t0).
  - unfold memory. rewrite Hp. specialize (Hmap _ _ Hp).
    apply lookup_lt_is_Some in Hmap as [M HM].
    rewrite Forall_lookup in Hrec. rewrite HM. simpl. by eapply Hrec.
  - destruct (Hdone _ _ Hj) as [c Hc]. unfold returned in Hc. by rewrite Hu in Hc.
Qed.
End SameGroup.

(** C4.  Creating a destination's record is not atomic: the [Load] of line
    33 and the [Store] of line 42 are two actions.  Two callers that report
    groups 23 and 24 for the same new destination can both miss on [Load]
    and both [Store]: two records are created, the second replaces the
    first in the map, and group 23 is lost, whereas either order of the two
    calls run one after the other leaves both groups recorded.  When both
    callers report the same group the final memory is the same as in a
    sequential run, but two records are created and both callers are told
    they changed the registry. *)
Theorem concurrent_creation_not_atomic :
  let callers := [start "example.com" 23; start "example.com" 24] in
  let racing := run [0; 1; 0; 1]%nat (callers, empty_client) in
  let serial := run [0; 0; 1; 1; 1]%nat (callers, empty_client) in
  let serial' := run [1; 1; 0; 0; 0]%nat (callers, empty_client) in
  let twins := run [0; 1; 0; 1]%nat
                 ([start "example.com" 23; start "example.com" 23], empty_client) in
  let twins_serial := run [0; 0; 1; 1]%nat
                 ([start "example.com" 23; start "example.com" 23], empty_client) in
  map returned (fst racing) = [Some true; Some true]
  /\ memory (snd racing) "example.com" = {[ 24 ]}
  /\ (23 ∉ memory (snd racing) "example.com")
  /\ length (sh_records (snd racing)) = 2%nat
  /\ map returned (fst serial) = [Some true; Some true]
  /\ memory (snd serial) "example.com" = {[ 23; 24 ]}
  /\ memory (snd serial') "example.com" = {[ 23; 24 ]}
  /\ map returned (fst twins) = [Some true; Some true]
  /\ length (sh_records (snd twins)) = 2%nat
  /\ memory (snd twins) "example.com" = {[ 23 ]}
  /\ map returned (fst twins_serial) = [Some true; Some false]
  /\ length (sh_records (snd twins_serial)) = 1%nat.
Proof.
  assert (H : 23 ∉ ({[ 24 ]} : gset Z)) by set_solver.
  repeat split; try (vm_compute; reflexivity). exact H.
Qed.

(** ** Overlapping calls and the growth of the memory *)

Lemma sched_step_fst t1 s t0 :
  sched_step ([t0; t1], s) 0 = ([fst (step t0 s); t1], snd (step t0 s)).
Proof. unfold sched_step. simpl. by destruct (step t0 s). Qed.

Lemma sched_step_snd t0 s t1 :
  sched_step ([t0; t1], s) 1 = ([t0; fst (step t1 s)], snd (step t1 s)).
Proof. unfold sched_step. simpl. by destruct (step t1 s). Qed.

Lemma step_Load_miss key g s :
  sh_map s !! key = None ->
  step (Thread key g AtLoad) s = (Thread key g AtStore, s).
Proof. intros H. unfold step. simpl. by rewrite H. Qed.

Lemma step_Load_hit key g s p :
  sh_map s !! key = Some p ->
  step (Thread key g AtLoad) s = (Thread key g (AtHas p), s).
Proof. intros H. unfold step. simpl. by rewrite H. Qed.

Lemma step_Store key g s :
  step (Thread key g AtStore) s =
    (Thread key g (Returned true),
     Shared (<[key := length (sh_records s)]> (sh_map s)) (sh_records s ++ [{[g]}])%list).
Proof. done. Qed.

Lemma step_Has_present key g s p :
  g ∈ default ∅ (sh_records s !! p) ->
  step (Thread key g (AtHas p)) s = (Thread key g (Returned false), s).
Proof. intros H. unfold step. simpl. by rewrite bool_decide_true. Qed.

Lemma race_two_stores key g1 g2 :
  run [0; 1; 0]%nat ([start key g1; start key g2], empty_client)
    = ([Thread key g1 (Returned true); Thread key g2 AtStore],
       Shared (<[key := 0%nat]> ∅) [ {[ g1 ]} ])
  /\ run [0; 1; 0; 1]%nat ([start key g1; start key g2], empty_client)
    = ([Thread key g1 (Returned true); Thread key g2 (Returned true)],
       Shared (<[key := 1%nat]> (<[key := 0%nat]> ∅)) [ {[ g1 ]}; {[ g2 ]} ]).
Proof.
  unfold run, start, empty_client. cbn [fold_left].
  rewrite sched_step_fst, step_Load_miss by apply lookup_empty. cbn [fst snd].
  rewrite sched_step_snd, step_Load_miss by apply lookup_empty. cbn [fst snd].
  rewrite sched_step_fst, step_Store. cbn [fst snd sh_map sh_records length app].
  split; [done|].
  by rewrite sched_step_snd, step_Store.
Qed.

Lemma serial_two_calls key g :
  run [0; 0; 1; 1]%nat ([start key g; start key g], empty_client)
    = ([Thread key g (Returned true); Thread key g (Returned false)],
       Shared (<[key := 0%nat]> ∅) [ {[ g ]} ]).
Proof.
  unfold run, start, empty_client. cbn [fold_left].
  rewrite sched_step_fst, step_Load_miss by apply lookup_empty. cbn [fst snd].
  rewrite sched_step_fst, step_Store. cbn [fst snd sh_map sh_records length app].
  rewrite sched_step_snd, (step_Load_hit _ _ _ 0) by apply lookup_insert_eq.
  cbn [fst snd].
  rewrite sched_step_snd, step_Has_present; [done|].
  simpl. set_solver.
Qed.

(** C3.  The memory of a destination is not monotone, and a repeated
    report is not always answered with "no change", when calls overlap.
    For every destination and groups [g1], [g2]: two callers that both miss
    on [Load] each [Store] a record.  After the first [Store] the memory is
    {g1}; the second [Store] replaces the record and the memory is {g2}, so
    for [g1 <> g2] a group that was in the memory is no longer there.  With
    the same group twice, both callers are told they changed the registry
    and two records are created, whereas the same two calls run one after
    the other answer true and then false. *)
Theorem memory_shrinks_under_race :
  forall (key : string) (g1 g2 : Z),
    let callers := [start key g1; start key g2] in
    let before := run [0; 1; 0]%nat (callers, empty_client) in
    let after := run [0; 1; 0; 1]%nat (callers, empty_client) in
    let twins := run [0; 1; 0; 1]%nat ([start key g1; start key g1], empty_client) in
    let serial := run [0; 0; 1; 1]%nat ([start key g1; start key g1], empty_client) in
    memory (snd before) key = {[ g1 ]}
    /\ memory (snd after) key = {[ g2 ]}
    /\ (g1 <> g2 -> g1 ∈ memory (snd before) key /\ g1 ∉ memory (snd after) key)
    /\ map returned (fst twins) = [Some true; Some true]
    /\ length (sh_records (snd twins)) = 2%nat
    /\ map returned (fst serial) = [Some true; Some false]
    /\ memory (snd serial) key = {[ g1 ]}.
Proof.
  intros key g1 g2 callers before after twins serial.
  destruct (race_two_stores key g1 g2) as [Hbefore Hafter].
  destruct (race_two_stores key g1 g1) as [_ Htwins].
  pose proof (serial_two_calls key g1) as Hserial.
  fold callers in Hbefore, Hafter. fold before in Hbefore. fold after in Hafter.
  fold twins in Htwins. fold serial in Hserial.
  assert (Hmem1 : memory (snd before) key = {[ g1 ]}).
  { rewrite Hbefore. unfold memory. cbn [snd sh_map sh_records].
    by rewrite lookup_insert_eq. }
  assert (Hmem2 : memory (snd after) key = {[ g2 ]}).
  { rewrite Hafter. unfold memory. cbn [snd sh_map sh_records].
    by rewrite lookup_insert_eq. }
  split; [done|]. split; [done|]. split.
  { intros Hne. rewrite Hmem1, Hmem2. set_solver. }
  rewrite Htwins, Hserial. split; [done|]. split; [done|]. split; [done|].
  unfold memory. cbn [snd sh_map sh_records]. by rewrite lookup_insert_eq.
Qed.

(* ===================================================================== *)
(** * Part III. Further properties of the code                            *)
(* ===================================================================== *)

Import More.

(** ** The registry *)

Lemma record_lookup reg key v key' :
  snd (setSpecErrWithKeyShareExtension reg key v) !! key' =
    if decide (key' = key) then Some ({[v]} ∪ rejected reg key) else reg !! key'.
Proof.
  unfold setSpecErrWithKeyShareExtension, rejected.
  destruct (reg !! key) as [M|] eqn:E; simpl.
  - case_bool_decide; simpl.
    + destruct (decide (key' = key)) as [->|]; [|done].
      rewrite E. f_equal. set_solver.
    + rewrite lookup_insert. destruct (decide (key' = key)) as [->|].
      * by rewrite decide_True.
      * by rewrite decide_False.
  - rewrite lookup_insert. destruct (decide (key' = key)) as [->|].
    + rewrite decide_True by done. f_equal. set_solver.
    + by rewrite decide_False.
Qed.

Lemma record_error_lookup reg key err key' :
  key' <> key -> snd (setSpecErrWithError reg key err) !! key' = reg !! key'.
Proof.
  intros Hne. rewrite record_error_classify.
  destruct (classify err); [|done]. rewrite record_lookup. by rewrite decide_False.
Qed.

(** X1.  [setSpecErrWithKeyShareExtension] reports a change exactly when the
    group was not yet in the destination's memory; afterwards the
    destination has a record holding the old memory and the group, and the
    record of every other destination is the one it had. *)
Theorem record_group_effect :
  forall (reg : registry) (key : string) (value : Z) (key' : string),
    let r := setSpecErrWithKeyShareExtension reg key value in
    fst r = bool_decide (value ∉ rejected reg key)
    /\ snd r !! key' =
         (if decide (key' = key) then Some ({[value]} ∪ rejected reg key)
          else reg !! key').
Proof.
  intros reg key value key' r. split.
  - apply record_change.
  - apply record_lookup.
Qed.

(** ** Classifying the engine's error *)

Lemma strip_prefix_app p s : strip_prefix p (p ++ s) = Some s.
Proof.
  induction p as [|c p IH]; [done|]. simpl. by rewrite Ascii.eqb_refl.
Qed.

Lemma span_digits_stop ds c rest :
  bytes_all is_digit ds = true -> is_digit c = false ->
  span_digits (ds ++ String c rest) = (ds, String c rest).
Proof.
  intros Hds Hc. induction ds as [|d ds IH]; simpl.
  - unfold is_digit in Hc. destruct (digit_val c); [|done].
    by rewrite bool_decide_true in Hc by (by eexists).
  - rewrite bytes_all_cons in Hds. apply andb_true_iff in Hds as [Hd Hds].
    unfold is_digit in Hd. apply bool_decide_eq_true in Hd as [x Hx].
    by rewrite Hx, IH.
Qed.

Lemma match_curve_error_message n suffix :
  match_curve_error (curve_error_prefix ++ Itoa n ++ ")" ++ suffix) = Some (Itoa n).
Proof.
  unfold match_curve_error. rewrite strip_prefix_app.
  change (Itoa n ++ ")" ++ suffix) with (Itoa n ++ String ")" suffix).
  rewrite span_digits_stop by (apply Itoa_digits || done).
  pose proof (Itoa_nonempty n). by destruct (Itoa n).
Qed.

Lemma re_Search_unfold s :
  re_Search s =
    match match_curve_error s with
    | Some g => Some g
    | None => match s with
              | EmptyString => None
              | String _ rest => re_Search rest
              end
    end.
Proof. by destruct s. Qed.

Lemma re_Search_message n suffix :
  re_Search (curve_error_prefix ++ Itoa n ++ ")" ++ suffix) = Some (Itoa n).
Proof. by rewrite re_Search_unfold, match_curve_error_message. Qed.

Lemma re_Search_after before s :
  is_Some (re_Search s) -> is_Some (re_Search (before ++ s)).
Proof.
  intros Hs. induction before as [|c before IH]; [done|].
  change (String c before ++ s) with (String c (before ++ s)).
  rewrite re_Search_unfold. by destruct (match_curve_error (String c (before ++ s))).
Qed.

(** X2.  An error whose text is the engine's message for curve id [n]
    (the recognised text, [n] in decimal, a closing parenthesis, then
    anything) makes [setSpecErrWithError] record [uint16(n)], that is
    [n mod 65536], exactly as [setSpecErrWithKeyShareExtension] would; text
    in front of the message does not hide it from the search. *)
Theorem record_error_records_uint16 :
  forall (reg : registry) (key : string) (n : Z) (before suffix : string),
    0 <= n <= maxInt ->
    setSpecErrWithError reg key (curve_error_prefix ++ Itoa n ++ ")" ++ suffix)
      = setSpecErrWithKeyShareExtension reg key (n mod 65536)
    /\ is_Some (re_Search (before ++ curve_error_prefix ++ Itoa n ++ ")" ++ suffix)).
Proof.
  intros reg key n before suffix Hn. split.
  - rewrite record_error_classify. unfold classify.
    rewrite re_Search_message, Atoi_Itoa by done. simpl. unfold to_uint16.
    by destruct (setSpecErrWithKeyShareExtension reg key (n mod 65536)).
  - apply re_Search_after. rewrite re_Search_message. by eexists.
Qed.

Lemma record_error_records_uint16_witness :
  setSpecErrWithError NewClient "example.com"
    (curve_error_prefix ++ Itoa 65560 ++ ")" ++ ". giving up")
  = setSpecErrWithKeyShareExtension NewClient "example.com" 24.
Proof.
  apply (record_error_records_uint16 NewClient "example.com" 65560 "" ". giving up").
  unfold maxInt. lia.
Defined.

Lemma span_digits_digits s : forall ds rest,
  span_digits s = (ds, rest) -> bytes_all is_digit ds = true.
Proof.
  induction s as [|c s IH]; intros ds rest Hs; simpl in Hs.
  - by inversion Hs.
  - destruct (digit_val c) as [d|] eqn:Hc; [|by inversion Hs].
    destruct (span_digits s) as [ds' rest'] eqn:E. inversion Hs; subst.
    rewrite bytes_all_cons, (IH ds' rest) by done.
    unfold is_digit. rewrite Hc. by rewrite bool_decide_true by (by eexists).
Qed.

Lemma match_curve_error_digits s ds :
  match_curve_error s = Some ds -> bytes_all is_digit ds = true /\ ds <> "".
Proof.
  unfold match_curve_error.
  destruct (strip_prefix curve_error_prefix s) as [rest|]; [|done].
  destruct (span_digits rest) as [ds' rest'] eqn:E.
  destruct ds' as [|d ds']; [done|].
  destruct rest' as [|c rest']; [done|].
  destruct (Ascii.eqb_spec c ")") as [->|Hc].
  - intros [= <-]. split; [by eapply span_digits_digits|done].
  - by destruct c as [[] [] [] [] [] [] [] []].
Qed.

Lemma re_Search_digits s : forall ds,
  re_Search s = Some ds -> bytes_all is_digit ds = true /\ ds <> "".
Proof.
  induction s as [|c s IH]; intros ds; rewrite re_Search_unfold.
  - destruct (match_curve_error "") as [g|] eqn:E; [|done].
    intros [= <-]. by apply (match_curve_error_digits "").
  - destruct (match_curve_error (String c s)) as [g|] eqn:E; [|apply IH].
    intros [= <-]. by apply (match_curve_error_digits (String c s)).
Qed.

Lemma re_Search_digits_message ds suffix :
  ds <> "" -> bytes_all is_digit ds = true ->
  re_Search (curve_error_prefix ++ ds ++ ")" ++ suffix) = Some ds.
Proof.
  intros Hne Hds. rewrite re_Search_unfold. unfold match_curve_error.
  rewrite strip_prefix_app.
  change (ds ++ ")" ++ suffix) with (ds ++ String ")" suffix).
  rewrite span_digits_stop by done. by destruct ds.
Qed.

Lemma Atoi_digits_large ds :
  bytes_all is_digit ds = true -> maxInt < H2.digits_from 0 ds -> Atoi ds = None.
Proof.
  intros Hds Hlarge. rewrite Atoi_int_numeric.
  unfold int_numeric, numeric_value. rewrite split_sign_digits by done.
  rewrite (proj2 (Z.leb_gt (H2.digits_from 0 ds) maxInt)) by lia.
  by rewrite andb_false_r.
Qed.

(** X3.  A recognised message whose number does not fit Go's [int] is not
    recorded.  The number is the digit string the search returns, of any
    length and with or without leading zeros, read in base ten: when it
    exceeds the largest [int], [strconv.Atoi] fails and
    [setSpecErrWithError] returns false with the registry as it was.  The
    search returns the whole digit string of the message, whatever it
    is. *)
Theorem record_error_ignores_overflow :
  forall (reg : registry) (key : string) (err : TLS.error) (ds : string),
    re_Search err = Some ds ->
    maxInt < H2.digits_from 0 ds ->
    setSpecErrWithError reg key err = (false, reg)
    /\ classify err = None
    /\ (forall (ds' suffix : string),
          ds' <> "" -> bytes_all is_digit ds' = true ->
          re_Search (curve_error_prefix ++ ds' ++ ")" ++ suffix) = Some ds').
Proof.
  intros reg key err ds Hfound Hlarge.
  destruct (re_Search_digits err ds Hfound) as [Hds _].
  pose proof (Atoi_digits_large ds Hds Hlarge) as Hatoi.
  split; [|split].
  - unfold setSpecErrWithError. by rewrite Hfound, Hatoi.
  - unfold classify. by rewrite Hfound, Hatoi.
  - intros ds' suffix. apply re_Search_digits_message.
Qed.

Lemma record_error_ignores_overflow_witness :
  setSpecErrWithError Examples.registry_24 "example.com"
    ("tls: " ++ curve_error_prefix ++ "000100000000000000000024" ++ ")" ++ ", giving up")
  = (false, Examples.registry_24).
Proof.
  refine (proj1 (record_error_ignores_overflow Examples.registry_24 "example.com"
                   ("tls: " ++ curve_error_prefix ++ "000100000000000000000024" ++ ")"
                      ++ ", giving up")
                   "000100000000000000000024" _ _)).
  - reflexivity.
  - vm_compute. reflexivity.
Defined.

(** ** What the registry always satisfies *)

Lemma calls_uint16 cs : forall st,
  Forall call_typed cs -> records_uint16 (fst st) -> records_uint16 (fst (calls cs st)).
Proof.
  induction cs as [|c cs IH]; intros st Hty Hinv; [done|].
  apply Forall_cons in Hty as [Hc Hty]. simpl. apply IH; [done|].
  destruct c; simpl;
    [by apply record_uint16|by apply record_error_uint16|done].
Qed.

Section ClientInvariant.
Context {Engine : Type}.
Variable ApplyPreset :
  Engine -> ClientHelloSpec -> store -> Engine * ClientHelloSpec * store * option TLS.error.
Variable HandshakeContext : Engine -> Engine * option TLS.error.
Variable NextProtoH3 : string.
Variable serverName : string.
Variable P : registry -> Prop.
Hypothesis P_record_error :
  forall reg err, P reg -> P (snd (setSpecErrWithError reg serverName err)).

Lemma Client_loop_preserves fuel utlsSpec : forall uspec w ex w',
  Client_loop ApplyPreset fuel serverName utlsSpec uspec w = Some (ex, w') ->
  P (w_registry w) -> P (w_registry w').
Proof.
  induction fuel as [|fuel IH]; intros uspec w ex w' Hrun HP; simpl in Hrun; [done|].
  destruct (ApplyPreset (w_engine w) uspec (w_store w)) as [[[eng uspec'] h] [err|]].
  - pose proof (P_record_error (w_registry w) err HP) as HP1.
    destruct (setSpecErrWithError (w_registry w) serverName err) as [c1 reg].
    simpl in HP1. destruct c1; simpl in Hrun.
    + destruct (changeSpec reg serverName utlsSpec h) as [c2 h'].
      destruct c2; simpl in Hrun.
      * by apply IH in Hrun.
      * by inversion Hrun; subst.
    + by inversion Hrun; subst.
  - by inversion Hrun; subst.
Qed.

Lemma Client_preserves fuel ja3Spec h2 w conn err w' :
  Client ApplyPreset HandshakeContext NextProtoH3 fuel ja3Spec h2 serverName w
    = Some (conn, err, w') ->
  P (w_registry w) -> P (w_registry w').
Proof.
  unfold Client, createSpecWithSpec. simpl.
  destruct h2; simpl;
    destruct (changeSpec (w_registry w) serverName ja3Spec _) as [c h1].
  all: destruct (Client_loop _ _ _ _ _ _) as [[[|e] w1]|] eqn:Hloop; [| |done].
  all: try destruct (HandshakeContext (w_engine w1)) as [eng e'].
  all: intros Heq HP; inversion Heq; subst; simpl.
  all: by eapply Client_loop_preserves in Hloop.
Qed.
End ClientInvariant.

(** X4.  Starting from [NewClient], whatever calls are made (recordings
    with a [uint16] group, recordings from errors, applications to specs),
    every destination's record is non-empty and holds only [uint16] ids, so
    at most 2^16 of them; a run of [Client] keeps both properties. *)
Theorem registry_invariants :
  forall (cs : list method_call) (h : store),
    Forall call_typed cs ->
    let reg := fst (calls cs (NewClient, h)) in
    records_nonempty reg
    /\ records_uint16 reg
    /\ (forall key, Z.of_nat (size (rejected reg key)) <= 65536)
    /\ (forall Engine ApplyPreset HandshakeContext NextProtoH3 fuel ja3Spec h2
               serverName (eng : Engine) h' n,
          match Client ApplyPreset HandshakeContext NextProtoH3 fuel ja3Spec h2
                  serverName (World reg h' eng n) with
          | Some (_, _, w') =>
              records_nonempty (w_registry w') /\ records_uint16 (w_registry w')
          | None => True
          end).
Proof.
  intros cs h Hty reg.
  assert (Hne : records_nonempty reg) by apply calls_nonempty, NewClient_nonempty.
  assert (Hu : records_uint16 reg) by (apply calls_uint16; [done|apply NewClient_uint16]).
  split; [done|]. split; [done|]. split.
  - intros key. apply size_uint16. intros g. by apply rejected_uint16.
  - intros Engine ApplyPreset HandshakeContext NextProtoH3 fuel ja3Spec h2
      serverName eng h' n.
    destruct (Client _ _ _ _ _ _ _ _) as [[[conn err] w']|] eqn:E; [|done]. split.
    + eapply (Client_preserves _ _ _ _ records_nonempty) in E; [done| |done].
      intros. by apply record_error_nonempty.
    + eapply (Client_preserves _ _ _ _ records_uint16) in E; [done| |done].
      intros. by apply record_error_uint16.
Qed.

Lemma registry_invariants_witness :
  let reg := fst (calls [CallRecordGroup "example.com" 24;
                         CallRecordError "example.org" Examples.curve_error_24;
                         CallChangeSpec "example.com" Examples.template]
                    (NewClient, Examples.template_store)) in
  records_nonempty reg /\ records_uint16 reg.
Proof.
  destruct (registry_invariants
              [CallRecordGroup "example.com" 24;
               CallRecordError "example.org" Examples.curve_error_24;
               CallChangeSpec "example.com" Examples.template]
              Examples.template_store) as (H1 & H2 & _).
  - repeat constructor; unfold is_uint16; lia.
  - by split.
Defined.

(** ** Applying the memory to a spec *)

Lemma filter_filter_weaker {A} (f g : A -> bool) l :
  (forall x, g x = true -> f x = true) ->
  List.filter g (List.filter f l) = List.filter g l.
Proof.
  intros Hgf. induction l as [|x l IH]; simpl; [done|].
  destruct (f x) eqn:Ef; simpl.
  - by rewrite IH.
  - rewrite IH. destruct (g x) eqn:Eg; [|done]. apply Hgf in Eg. congruence.
Qed.

Lemma existsb_filter_weaker {A} (f g : A -> bool) l :
  (forall x, g x = true -> f x = true) ->
  existsb g (List.filter f l) = existsb g l.
Proof.
  intros Hgf. induction l as [|x l IH]; simpl; [done|].
  destruct (f x) eqn:Ef; simpl.
  - by rewrite IH.
  - rewrite IH. destruct (g x) eqn:Eg; [|done]. apply Hgf in Eg. congruence.
Qed.

Lemma keeps_weaker (M1 M2 : gset Z) g :
  M1 ⊆ M2 -> keeps M2 g = true -> keeps M1 g = true.
Proof.
  unfold keeps. intros Hsub H2. apply bool_decide_eq_true in H2.
  apply bool_decide_eq_true. set_solver.
Qed.

Lemma prune_ext_weaker (M1 M2 : gset Z) e :
  M1 ⊆ M2 -> prune_ext M2 (prune_ext M1 e) = prune_ext M2 e.
Proof.
  intros Hsub. destruct e; simpl; try done; f_equal;
    apply filter_filter_weaker; intros x; by apply keeps_weaker.
Qed.

Lemma has_survivor_weaker (M1 M2 : gset Z) e :
  M1 ⊆ M2 -> has_survivor M2 (prune_ext M1 e) = has_survivor M2 e.
Proof.
  intros Hsub. destruct e; simpl; try done;
    apply existsb_filter_weaker; intros x; by apply keeps_weaker.
Qed.

Lemma existsb_agree {A} (f g : A -> bool) (l : list A) :
  (forall x, x ∈ l -> f x = g x) -> existsb f l = existsb g l.
Proof.
  induction l as [|x l IH]; intros Hfg; simpl; [done|].
  rewrite Hfg by (by left). rewrite IH; [done|]. intros y Hy. apply Hfg. by right.
Qed.

(** X5.  Applying a larger memory after a smaller one is the same as
    applying the larger one directly, result and store alike; in
    particular applying the same memory twice is the same as once.  This is
    what lets the retry loop re-apply the whole memory to the spec it has
    already pruned. *)
Theorem changeSpec_absorbs :
  forall (reg1 reg2 : registry) (key : string) (spec : ClientHelloSpec) (h : store),
    rejected reg1 key ⊆ rejected reg2 key ->
    changeSpec reg2 key spec (snd (changeSpec reg1 key spec h))
      = changeSpec reg2 key spec h.
Proof.
  intros reg1 reg2 key spec h Hsub.
  set (h1 := snd (changeSpec reg1 key spec h)).
  assert (Hh1 : forall l, h1 !! l =
            if bool_decide (l ∈ Extensions spec)
            then prune_ext (rejected reg1 key) <$> h !! l else h !! l)
    by (intros l; apply changeSpec_store).
  apply injective_projections.
  - rewrite !changeSpec_change. destruct (reg2 !! key) as [M2|] eqn:E2; [|done].
    f_equal. apply existsb_agree. intros ext Hext. unfold survivor_at.
    rewrite Hh1, bool_decide_true by done.
    destruct (h !! ext) as [e|]; simpl; [|done].
    apply has_survivor_weaker. unfold rejected in Hsub at 2. by rewrite E2 in Hsub.
  - apply list_eq. intros l. rewrite !changeSpec_store, Hh1.
    case_bool_decide; [|done].
    destruct (h !! l) as [e|]; simpl; [|done]. f_equal. by apply prune_ext_weaker.
Qed.

Lemma changeSpec_absorbs_witness :
  changeSpec Examples.registry_24 "example.com" Examples.template
    (snd (changeSpec Examples.registry_24 "example.com" Examples.template
            Examples.template_store))
  = changeSpec Examples.registry_24 "example.com" Examples.template
      Examples.template_store.
Proof.
  apply (changeSpec_absorbs Examples.registry_24 Examples.registry_24).
  intros g Hg. exact Hg.
Defined.

Lemma filter_id_Forall {A} (f : A -> bool) l :
  List.filter f l = l <-> Forall (fun x => f x = true) l.
Proof.
  induction l as [|x l IH]; simpl; [by split|].
  destruct (f x) eqn:E.
  - split.
    + intros [= Hl]. constructor; [done|]. by apply IH.
    + intros [_ Hl]%Forall_cons. f_equal. by apply IH.
  - split.
    + intros Hl. exfalso.
      assert (Hin : In x (List.filter f l)) by (rewrite Hl; by left).
      apply filter_In in Hin as [_ ?]. congruence.
    + intros [? _]%Forall_cons. congruence.
Qed.

Lemma filter_Forall {A} (f : A -> bool) l : Forall (fun x => f x = true) (List.filter f l).
Proof.
  apply List.Forall_forall. intros x Hx. by apply filter_In in Hx as [_ ?].
Qed.

Lemma Forall_keeps {A} (M : gset Z) (f : A -> Z) l :
  Forall (fun x => keeps M (f x) = true) l <-> Forall (fun x => to_uint16 (f x) ∉ M) l.
Proof.
  apply Forall_iff. intros x. unfold keeps. by rewrite bool_decide_eq_true.
Qed.

Lemma prune_ext_clean M e : clean_ext M (prune_ext M e).
Proof.
  destruct e; simpl; try done.
  - apply (Forall_keeps M Group), filter_Forall.
  - apply (Forall_keeps M (fun g => g)), (filter_Forall (keeps M)).
Qed.

Lemma prune_ext_id_clean M e : prune_ext M e = e <-> clean_ext M e.
Proof.
  destruct e as [ks|cs|ps|k b]; simpl; try (by split).
  - rewrite <- (Forall_keeps M Group), <- filter_id_Forall.
    split; [by intros [= ?]|by intros ->].
  - rewrite <- (Forall_keeps M (fun g => g)), <- (filter_id_Forall (keeps M)).
    split; [by intros [= ?]|by intros ->].
Qed.

(** X6.  After [changeSpec], no key-share entry and no supported-curve
    entry of the spec has a group id in the destination's memory; and
    [changeSpec] leaves the store exactly as it was if and only if that was
    already so before the call. *)
Theorem changeSpec_cleans :
  forall (reg : registry) (key : string) (spec : ClientHelloSpec) (h : store),
    let M := rejected reg key in
    let h' := snd (changeSpec reg key spec h) in
    clean_spec M spec h' /\ (h' = h <-> clean_spec M spec h).
Proof.
  intros reg key spec h M h'.
  assert (Hclean : clean_spec M spec h').
  { intros ext e Hext He. unfold h' in He. rewrite changeSpec_store in He.
    rewrite bool_decide_true in He by done.
    destruct (h !! ext) as [e0|]; simpl in He; [|done].
    inversion He; subst. apply prune_ext_clean. }
  split; [done|]. split.
  - intros Heq. by rewrite <- Heq.
  - intros Hh. apply list_eq. intros l. unfold h'. rewrite changeSpec_store.
    case_bool_decide as Hl; [|done].
    destruct (h !! l) as [e|] eqn:E; simpl; [|done]. f_equal.
    apply prune_ext_id_clean. by eapply Hh.
Qed.

(** ** Protocol modes *)

Lemma first_ALPN_Some exts : forall h a ps,
  first_ALPN exts h = Some (a, ps) -> a ∈ exts /\ h !! a = Some (ALPNExtension ps).
Proof.
  induction exts as [|ext rest IH]; intros h a ps Hf; simpl in Hf; [done|].
  destruct (h !! ext) as [[ks|cs|ps'|k b]|] eqn:E;
    try (apply IH in Hf as [? ?]; split; [by right|done]).
  inversion Hf; subst. split; [by left|done].
Qed.

Lemma first_ALPN_agree exts : forall (h1 h2 : store),
  (forall ext, ext ∈ exts -> alpn_view (h1 !! ext) = alpn_view (h2 !! ext)) ->
  first_ALPN exts h1 = first_ALPN exts h2.
Proof.
  induction exts as [|ext rest IH]; intros h1 h2 Hv; simpl; [done|].
  pose proof (Hv ext ltac:(by left)) as Hext.
  assert (Hrest : first_ALPN rest h1 = first_ALPN rest h2).
  { apply IH. intros x Hx. apply Hv. by right. }
  destruct (h1 !! ext) as [[ks|cs|ps|k b]|], (h2 !! ext) as [[ks'|cs'|ps'|k' b']|];
    simpl in Hext; try done; by inversion Hext.
Qed.

Lemma lookup_with_first_ALPN f exts (h : store) l :
  with_first_ALPN f exts h !! l =
    match first_ALPN exts h with
    | Some (a, ps) => if decide (l = a) then Some (ALPNExtension (f ps)) else h !! l
    | None => h !! l
    end.
Proof.
  unfold with_first_ALPN. destruct (first_ALPN exts h) as [[a ps]|] eqn:E; [|done].
  apply first_ALPN_Some in E as [_ Ha].
  destruct (decide (l = a)) as [->|Hne].
  - apply list_lookup_insert_eq. by eapply lookup_lt_Some.
  - by apply list_lookup_insert_ne.
Qed.

Lemma first_ALPN_rewritten f exts : forall (h : store),
  first_ALPN exts (with_first_ALPN f exts h) =
    match first_ALPN exts h with
    | Some (a, ps) => Some (a, f ps)
    | None => None
    end.
Proof.
  induction exts as [|ext rest IH]; intros h; [done|].
  unfold with_first_ALPN at 1. simpl.
  destruct (h !! ext) as [e|] eqn:E.
  - destruct e as [ks|cs|ps|k b].
    3:{ by rewrite list_lookup_insert_eq by (by eapply lookup_lt_Some). }
    all: fold (with_first_ALPN f rest h).
    all: rewrite lookup_with_first_ALPN.
    all: destruct (first_ALPN rest h) as [[a ps]|] eqn:Ef;
      [pose proof (first_ALPN_Some _ _ _ _ Ef) as [_ Ha];
       rewrite decide_False by (intros ->; congruence)|];
      rewrite E; specialize (IH h); by rewrite Ef in IH.
  - fold (with_first_ALPN f rest h). rewrite lookup_with_first_ALPN.
    destruct (first_ALPN rest h) as [[a ps]|] eqn:Ef;
      [pose proof (first_ALPN_Some _ _ _ _ Ef) as [_ Ha];
       rewrite decide_False by (intros ->; congruence)|];
      rewrite E; specialize (IH h); by rewrite Ef in IH.
Qed.

Lemma with_first_ALPN_compose f g exts (h : store) :
  with_first_ALPN g exts (with_first_ALPN f exts h)
  = with_first_ALPN (fun ps => g (f ps)) exts h.
Proof.
  apply list_eq. intros l. rewrite !lookup_with_first_ALPN, first_ALPN_rewritten.
  destruct (first_ALPN exts h) as [[a ps]|]; [|done]. by destruct (decide (l = a)).
Qed.

Lemma createSpecWithSpec_store NextProtoH3 spec h2 h3 (h : store) :
  snd (createSpecWithSpec NextProtoH3 spec h2 h3 h)
  = with_first_ALPN (mode_rewrite NextProtoH3 h2 h3) (Extensions spec) h.
Proof.
  unfold createSpecWithSpec, mode_rewrite. destruct h3, h2; simpl;
    rewrite ?rewrite_first_ALPN_with; try done.
  unfold with_first_ALPN.
  destruct (first_ALPN (Extensions spec) h) as [[a ps]|] eqn:E; [|done].
  apply first_ALPN_Some in E as [_ Ha]. by rewrite list_insert_id.
Qed.

Lemma alpn_view_prune M o : alpn_view (prune_ext M <$> o) = alpn_view o.
Proof. by destruct o as [[]|]. Qed.

(** X7.  The ALPN adjustment and the pruning commute: they touch different
    kinds of extension, so applying the memory after [createSpecWithSpec]
    gives the same result and the same store as adjusting after applying
    the memory, in every mode. *)
Theorem changeSpec_createSpecWithSpec_commute :
  forall (reg : registry) key NextProtoH3 (spec : ClientHelloSpec) (h2 h3 : bool)
         (h : store),
    changeSpec reg key spec (snd (createSpecWithSpec NextProtoH3 spec h2 h3 h))
    = (fst (changeSpec reg key spec h),
       snd (createSpecWithSpec NextProtoH3 spec h2 h3 (snd (changeSpec reg key spec h)))).
Proof.
  intros reg key N spec h2 h3 h. rewrite !createSpecWithSpec_store.
  set (f := mode_rewrite N h2 h3). set (exts := Extensions spec).
  assert (Hfirst : first_ALPN exts (snd (changeSpec reg key spec h)) = first_ALPN exts h).
  { apply first_ALPN_agree. intros ext Hext.
    rewrite changeSpec_store, bool_decide_true by done. apply alpn_view_prune. }
  apply injective_projections; simpl.
  - rewrite !changeSpec_change. destruct (reg !! key) as [M|]; [|done]. f_equal.
    apply existsb_agree. intros ext Hext. unfold survivor_at.
    rewrite lookup_with_first_ALPN.
    destruct (first_ALPN exts h) as [[a ps]|] eqn:E; [|done].
    apply first_ALPN_Some in E as [_ Ha].
    destruct (decide (ext = a)) as [->|]; [|done]. by rewrite Ha.
  - apply list_eq. intros l.
    rewrite changeSpec_store, !lookup_with_first_ALPN, Hfirst, changeSpec_store.
    destruct (first_ALPN exts h) as [[a ps]|] eqn:E; [|done].
    apply first_ALPN_Some in E as [Hin Ha].
    destruct (decide (l = a)) as [->|]; [|done].
    by rewrite bool_decide_true by done.
Qed.

(** X8.  Two adjustments in a row rewrite the first ALPN list by one mode
    after the other.  So the HTTP/3 adjustment gives the same store whatever
    adjustment came before it, and the default mode changes nothing before
    or after another one. *)
Theorem createSpecWithSpec_twice :
  forall NextProtoH3 (spec : ClientHelloSpec) (a2 a3 b2 b3 : bool) (h : store),
    let first := snd (createSpecWithSpec NextProtoH3 spec a2 a3 h) in
    snd (createSpecWithSpec NextProtoH3 spec b2 b3 first)
    = with_first_ALPN
        (fun protos => mode_rewrite NextProtoH3 b2 b3 (mode_rewrite NextProtoH3 a2 a3 protos))
        (Extensions spec) h
    /\ snd (createSpecWithSpec NextProtoH3 spec b2 true first)
       = snd (createSpecWithSpec NextProtoH3 spec b2 true h)
    /\ snd (createSpecWithSpec NextProtoH3 spec true false first) = first
    /\ snd (createSpecWithSpec NextProtoH3 spec b2 b3
              (snd (createSpecWithSpec NextProtoH3 spec true false h)))
       = snd (createSpecWithSpec NextProtoH3 spec b2 b3 h).
Proof.
  intros N spec a2 a3 b2 b3 h first. unfold first.
  rewrite !createSpecWithSpec_store, !with_first_ALPN_compose. done.
Qed.

(** ** The HTTP/1.1-only list *)

Lemma remove_first_absent v l : v ∉ l -> remove_first v l = l.
Proof.
  induction l as [|x l IH]; intros Hv; [done|]. simpl.
  destruct (String.eqb_spec x v) as [->|]; [exfalso; apply Hv; by left|].
  f_equal. apply IH. intros ?. apply Hv. by right.
Qed.

Lemma remove_first_subset v l x : x ∈ remove_first v l -> x ∈ l.
Proof.
  induction l as [|y l IH]; [done|]. simpl.
  destruct (String.eqb_spec y v) as [->|]; [by right|].
  intros [->|Hx]%elem_of_cons; [by left|]. right. by apply IH.
Qed.

Lemma remove_first_keeps v l x : x <> v -> x ∈ l -> x ∈ remove_first v l.
Proof.
  intros Hxv. induction l as [|y l IH]; [done|]. simpl.
  destruct (String.eqb_spec y v) as [->|].
  - intros [->|Hx]%elem_of_cons; done.
  - intros [->|Hx]%elem_of_cons; [by left|]. right. by apply IH.
Qed.

Lemma remove_first_NoDup v l :
  NoDup l -> NoDup (remove_first v l) /\ v ∉ remove_first v l.
Proof.
  induction 1 as [|x l Hx Hnd [IH1 IH2]]; simpl.
  - split; [constructor|apply not_elem_of_nil].
  - destruct (String.eqb_spec x v) as [->|Hne]; [done|]. split.
    + constructor; [|done]. intros Hin. by apply remove_first_subset in Hin.
    + apply not_elem_of_cons. split; [congruence|done].
Qed.

(** X9.  For an ALPN list without repeated entries, the HTTP/1.1-only
    rewriting returns a list without repeated entries that does not contain
    "h2" and contains "http/1.1"; every other protocol is in the result
    exactly if it was in the list; and rewriting the result again changes
    nothing. *)
Theorem http1_protocols_NoDup :
  forall protos : list string,
    NoDup protos ->
    let r := http1_protocols protos in
    NoDup r
    /\ ("h2" ∉ r)
    /\ ("http/1.1" ∈ r)
    /\ (forall x, x <> "h2" -> x <> "http/1.1" -> (x ∈ r <-> x ∈ protos))
    /\ http1_protocols r = r.
Proof.
  intros protos Hnd r. unfold r. rewrite !http1_protocols_only.
  destruct (remove_first_NoDup "h2" protos Hnd) as [Hnd1 Hno].
  unfold http1_only at 1 2 3 4 5. set (p := remove_first "h2" protos) in *.
  assert (Hres : let q := if bool_decide ("http/1.1" ∈ p) then p else "http/1.1" :: p in
                 NoDup q /\ ("h2" ∉ q) /\ ("http/1.1" ∈ q)).
  { case_bool_decide as Hin; simpl; [done|]. split; [by constructor|].
    split; [|by left]. apply not_elem_of_cons. split; [done|done]. }
  destruct Hres as (Hq1 & Hq2 & Hq3).
  split; [done|]. split; [done|]. split; [done|]. split.
  - intros x Hx1 Hx2. case_bool_decide.
    + split; [apply remove_first_subset|by apply remove_first_keeps].
    + rewrite elem_of_cons. split.
      * intros [?|Hx]; [done|]. by apply remove_first_subset in Hx.
      * intros Hx. right. by apply remove_first_keeps.
  - unfold http1_only. rewrite remove_first_absent by done.
    by rewrite bool_decide_true by done.
Qed.

Lemma http1_protocols_NoDup_witness :
  http1_protocols (http1_protocols ["h2"; "spdy/3.1"; "http/1.0"])
  = http1_protocols ["h2"; "spdy/3.1"; "http/1.0"].
Proof.
  apply (http1_protocols_NoDup ["h2"; "spdy/3.1"; "http/1.0"]).
  repeat constructor; intros Hin; apply list_elem_of_In in Hin; simpl in Hin;
    repeat (destruct Hin as [Hin|Hin]; [discriminate Hin|]); exact Hin.
Defined.

(** ** Outcomes of the retry loop *)

(** X10.  A run of [Client] for one destination leaves the record of every
    other destination as it was. *)
Theorem Client_other_destinations :
  forall Engine ApplyPreset HandshakeContext NextProtoH3 fuel ja3Spec h2 serverName
         (w : @world Engine) conn err w' (D : string),
    Client ApplyPreset HandshakeContext NextProtoH3 fuel ja3Spec h2 serverName w
      = Some (conn, err, w') ->
    D <> serverName ->
    w_registry w' !! D = w_registry w !! D.
Proof.
  intros Engine ApplyPreset HandshakeContext NextProtoH3 fuel ja3Spec h2 serverName
    w conn err w' D Hrun HD.
  eapply (Client_preserves _ _ _ serverName
            (fun reg => reg !! D = w_registry w !! D)) in Hrun; [done| |done].
  intros reg e Hreg. by rewrite record_error_lookup.
Qed.

Lemma Client_other_destinations_witness :
  match Client (Examples.refusing Examples.curve_error_24) Examples.no_handshake "h3"
          3 Examples.template true "example.com"
          (World (snd (setSpecErrWithKeyShareExtension Examples.registry_24
                         "example.org" 29)) Examples.template_store tt 0) with
  | Some (_, _, w') => w_registry w' !! "example.org" = Some {[ 29 ]}
  | None => False
  end.
Proof.
  destruct (Client _ _ _ _ _ _ _ _) as [[[conn err] w']|] eqn:Hrun; [|discriminate Hrun].
  rewrite (Client_other_destinations unit _ _ _ _ _ _ _ _ _ _ _ "example.org" Hrun)
    by discriminate.
  reflexivity.
Defined.

(** X11.  [Client] never returns a nil connection without an error. *)
Theorem Client_nil_connection_has_error :
  forall Engine ApplyPreset HandshakeContext NextProtoH3 fuel ja3Spec h2 serverName
         (w : @world Engine),
    match Client ApplyPreset HandshakeContext NextProtoH3 fuel ja3Spec h2 serverName w with
    | Some (None, None, _) => False
    | _ => True
    end.
Proof.
  intros Engine ApplyPreset HandshakeContext NextProtoH3 fuel ja3Spec h2 serverName w.
  unfold Client.
  destruct (createSpecWithSpec NextProtoH3 ja3Spec h2 false (w_store w))
    as [[utlsSpec [e|]] h0]; [done|].
  destruct (changeSpec (w_registry w) serverName utlsSpec h0) as [c h1].
  destruct (Client_loop _ _ _ _ _ _) as [[[|e] w1]|]; [|done|done].
  by destruct (HandshakeContext (w_engine w1)) as [eng [e|]].
Qed.

(** X12.  When the first attempt is rejected for a group that the
    destination's memory already holds, [Client] gives up at once: it
    returns that error with a nil connection after the one attempt, and the
    registry is unchanged. *)
Theorem Client_known_rejection_aborts :
  forall Engine ApplyPreset HandshakeContext NextProtoH3 fuel ja3Spec h2 serverName
         (w : @world Engine) eng uspec' h err g,
    ApplyPreset (w_engine w) ja3Spec
      (prepared_store NextProtoH3 (w_registry w) ja3Spec h2 serverName (w_store w))
      = (eng, uspec', h, Some err) ->
    classify err = Some g ->
    g ∈ rejected (w_registry w) serverName ->
    Client ApplyPreset HandshakeContext NextProtoH3 (S fuel) ja3Spec h2 serverName w
      = Some (None, Some err, World (w_registry w) h eng (S (w_attempts w))).
Proof.
  intros Engine ApplyPreset HandshakeContext NextProtoH3 fuel ja3Spec h2 serverName
    w eng uspec' h err g Happly Hg Hin.
  assert (Hrec : setSpecErrWithError (w_registry w) serverName err = (false, w_registry w)).
  { rewrite record_error_classify, Hg.
    pose proof (record_change (w_registry w) serverName g) as Hc.
    rewrite bool_decide_false in Hc by (by intros ?).
    unfold setSpecErrWithKeyShareExtension in *. unfold rejected in Hin.
    destruct (w_registry w !! serverName) as [M|]; simpl in *; [|done].
    by rewrite bool_decide_true. }
  unfold prepared_store in Happly. unfold Client.
  destruct (createSpecWithSpec NextProtoH3 ja3Spec h2 false (w_store w))
    as [[utlsSpec err0] h0] eqn:Hcreate.
  assert (utlsSpec = ja3Spec /\ err0 = None) as [-> ->].
  { unfold createSpecWithSpec in Hcreate. simpl in Hcreate.
    destruct (negb h2); by inversion Hcreate. }
  simpl in Happly.
  destruct (changeSpec (w_registry w) serverName ja3Spec h0) as [c h1].
  simpl in *. by rewrite Happly, Hrec.
Qed.

Lemma Client_known_rejection_aborts_witness :
  Client (Examples.refusing Examples.curve_error_24) Examples.no_handshake "h3"
    1 Examples.template true "example.com"
    (World Examples.registry_24 Examples.template_store tt 0)
  = Some (None, Some Examples.curve_error_24,
          World Examples.registry_24
            (snd (changeSpec Examples.registry_24 "example.com" Examples.template
                    Examples.template_store)) tt 1).
Proof.
  apply (Client_known_rejection_aborts unit (Examples.refusing Examples.curve_error_24)
           Examples.no_handshake "h3" 0 Examples.template true "example.com"
           (World Examples.registry_24 Examples.template_store tt 0)
           tt Examples.template _ Examples.curve_error_24 24).
  - reflexivity.
  - reflexivity.
  - unfold Examples.registry_24. cbn [w_registry].
    rewrite record_rejected. set_solver.
Defined.

(** X13.  When the first [ApplyPreset] succeeds, [Client] performs the
    handshake once and returns the connection together with whatever error
    the handshake gave: a failed handshake is not retried and is not
    recorded in the registry, whatever its text. *)
Theorem Client_handshake_not_retried :
  forall Engine ApplyPreset HandshakeContext NextProtoH3 fuel ja3Spec h2 serverName
         (w : @world Engine) eng uspec' h,
    ApplyPreset (w_engine w) ja3Spec
      (prepared_store NextProtoH3 (w_registry w) ja3Spec h2 serverName (w_store w))
      = (eng, uspec', h, None) ->
    Client ApplyPreset HandshakeContext NextProtoH3 (S fuel) ja3Spec h2 serverName w
      = Some (Some (fst (HandshakeContext eng)), snd (HandshakeContext eng),
              World (w_registry w) h (fst (HandshakeContext eng)) (S (w_attempts w))).
Proof.
  intros Engine ApplyPreset HandshakeContext NextProtoH3 fuel ja3Spec h2 serverName
    w eng uspec' h Happly.
  unfold prepared_store in Happly. unfold Client.
  destruct (createSpecWithSpec NextProtoH3 ja3Spec h2 false (w_store w))
    as [[utlsSpec err0] h0] eqn:Hcreate.
  assert (utlsSpec = ja3Spec /\ err0 = None) as [-> ->].
  { unfold createSpecWithSpec in Hcreate. simpl in Hcreate.
    destruct (negb h2); by inversion Hcreate. }
  simpl in Happly.
  destruct (changeSpec (w_registry w) serverName ja3Spec h0) as [c h1].
  simpl in *. rewrite Happly. simpl. by destruct (HandshakeContext eng).
Qed.

Lemma Client_handshake_not_retried_witness :
  Client MoreExamples.accepting (MoreExamples.failing_handshake Examples.curve_error_24) "h3"
    1 Examples.template true "example.com" Examples.fresh_world
  = Some (Some tt, Some Examples.curve_error_24,
          World NewClient Examples.template_store tt 1).
Proof.
  apply (Client_handshake_not_retried unit MoreExamples.accepting
           (MoreExamples.failing_handshake Examples.curve_error_24) "h3" 0
           Examples.template true "example.com" Examples.fresh_world
           tt Examples.template Examples.template_store).
  reflexivity.
Defined.

(** ** More on the HTTP/2 fingerprint codec *)


Lemma to_uint32_range i : is_uint32 (to_uint32 i).
Proof. unfold is_uint32, to_uint32. apply Z.mod_pos_bound. lia. Qed.

Lemma Split_nonempty s sep : Split s sep <> [].
Proof.
  destruct s as [|c s]; simpl; [done|].
  destruct (Ascii.eqb c sep); [done|]. by destruct (Split s sep).
Qed.

Lemma parse_settings_wf toks : forall acc ss,
  parse_settings toks acc = Ok ss ->
  Forall wf_Setting acc ->
  Forall wf_Setting ss /\ length ss = (length acc + length toks)%nat.
Proof.
  induction toks as [|tok toks IH]; intros acc ss Hrun Hacc; simpl in Hrun.
  - inversion Hrun; subst. split; [done|]. simpl. lia.
  - destruct (Split tok ":") as [|k [|v [|? ?]]]; try done.
    destruct (Atoi k) as [ttKey|]; [|done].
    destruct (Atoi v) as [ttVal|]; [|done].
    apply IH in Hrun as [Hwf Hlen].
    + split; [done|]. rewrite Hlen, length_app. simpl. lia.
    + apply Forall_app. split; [done|]. constructor; [|done].
      split; [apply to_uint16_range|apply to_uint32_range].
Qed.

Lemma parse_settings_error toks : forall acc,
  parse_settings toks acc <> Err ErrSpecFormat.
Proof.
  induction toks as [|tok toks IH]; intros acc; simpl; [done|].
  destruct (Split tok ":") as [|k [|v [|? ?]]]; try done.
  destruct (Atoi k) as [ttKey|]; [|done].
  destruct (Atoi v) as [ttVal|]; [|done]. apply IH.
Qed.

Lemma letter_head_cases hkey h :
  letter_head hkey = Some h -> h ∈ [":method"; ":authority"; ":scheme"; ":path"].
Proof.
  unfold letter_head.
  destruct (String.eqb hkey "m"); [intros [= <-]; set_solver|].
  destruct (String.eqb hkey "a"); [intros [= <-]; set_solver|].
  destruct (String.eqb hkey "s"); [intros [= <-]; set_solver|].
  destruct (String.eqb hkey "p"); [intros [= <-]; set_solver|done].
Qed.

Lemma parse_heads_canonical hkeys :
  Forall (fun h => h ∈ [":method"; ":authority"; ":scheme"; ":path"]) (parse_heads hkeys []).
Proof.
  rewrite parse_heads_omap. simpl. apply Forall_forall. intros h Hin.
  apply list_elem_of_omap in Hin as (hkey & _ & Hh). by eapply letter_head_cases.
Qed.

Lemma pseudo_headers_canonical (ToLower : string -> string) hs :
  (forall name, name ∈ [":method"; ":authority"; ":scheme"; ":path"] -> ToLower name = name) ->
  Forall (fun h => h ∈ [":method"; ":authority"; ":scheme"; ":path"]) hs ->
  pseudo_headers ToLower hs = hs.
Proof.
  intros Hfix Hall. unfold pseudo_headers.
  induction Hall as [|h hs Hh Hall IH]; [done|].
  rewrite omap_cons_match, IH. unfold pseudo_name. rewrite (Hfix _ Hh).
  apply list_elem_of_In in Hh. simpl in Hh.
  by destruct Hh as [<-|[<-|[<-|[<-|[]]]]].
Qed.

(** X14.  Whatever string [CreateH2SpecWithStr] accepts, the value it
    returns has at least one setting, identifiers within 16 bits, values
    and the flow within 32 bits, the zero priority, and header names out of
    :method, :authority, :scheme, :path only; encoding it and decoding
    again gives the same value. *)
Theorem CreateH2SpecWithStr_well_formed :
  forall (ToLower : string -> string) s q,
    (forall name, name ∈ [":method"; ":authority"; ":scheme"; ":path"] ->
                  ToLower name = name) ->
    CreateH2SpecWithStr s = Ok q ->
    wf_H2Spec q
    /\ InitialSetting q <> []
    /\ Priority_ q = Priority_zero
    /\ Forall (fun h => h ∈ [":method"; ":authority"; ":scheme"; ":path"]) (OrderHeaders q)
    /\ CreateH2SpecWithStr (Fp ToLower q) = Ok q.
Proof.
  intros ToLower s q Hfix Hrun. unfold CreateH2SpecWithStr in Hrun.
  destruct (Split s "|") as [|t0 [|t1 [|t2 [|t3 [|? ?]]]]]; try done.
  destruct (parse_settings (Split t0 ",") []) as [settings|] eqn:Hset; [|done].
  destruct (Atoi t1) as [connFlow|]; [|done].
  inversion Hrun; subst q; clear Hrun.
  apply parse_settings_wf in Hset as [Hwf Hlen]; [|done].
  assert (Hne : settings <> []).
  { intros ->. pose proof (Split_nonempty t0 ",") as Hs.
    destruct (Split t0 ","); [done|]. simpl in Hlen. lia. }
  assert (Hq : wf_H2Spec
            {| InitialSetting := settings; ConnFlow := to_uint32 connFlow;
               OrderHeaders := parse_heads (Split t3 ",") [];
               Priority_ := Priority_zero |}).
  { split; [done|apply to_uint32_range]. }
  split; [done|]. split; [done|]. split; [done|].
  split; [apply parse_heads_canonical|].
  rewrite decode_Fp by done. cbn [InitialSetting ConnFlow OrderHeaders].
  rewrite pseudo_headers_canonical; [done|done|apply parse_heads_canonical].
Qed.

Lemma CreateH2SpecWithStr_well_formed_witness :
  exists q,
    CreateH2SpecWithStr "-1:-1,70000:4294967297|-5|x|m,z,p,m" = Ok q
    /\ InitialSetting q = [ {| Id := 65535; Val := 4294967295 |}; {| Id := 4464; Val := 1 |} ]
    /\ CreateH2SpecWithStr (Fp ToLowerASCII q) = Ok q.
Proof.
  eexists. split; [reflexivity|]. split; [reflexivity|].
  refine (proj2 (proj2 (proj2 (proj2
    (CreateH2SpecWithStr_well_formed ToLowerASCII
       "-1:-1,70000:4294967297|-5|x|m,z,p,m" _ _ _))))).
  - intros name Hin. apply list_elem_of_In in Hin. simpl in Hin.
    repeat (destruct Hin as [<-|Hin]; [reflexivity|]). destruct Hin.
  - reflexivity.
Defined.

Lemma Join_cons_nonempty t rest sep : t <> "" -> Join (t :: rest) sep <> "".
Proof. intros Ht. simpl. destruct rest; [done|]. by destruct t. Qed.

Lemma Join_inj (sep : ascii) toks1 toks2 :
  Forall (fun t => bytes_all (differs sep) t = true /\ t <> "") toks1 ->
  Forall (fun t => bytes_all (differs sep) t = true /\ t <> "") toks2 ->
  Join toks1 (String sep "") = Join toks2 (String sep "") ->
  toks1 = toks2.
Proof.
  intros H1 H2 Heq.
  destruct toks1 as [|a r1], toks2 as [|b r2]; [done| | |].
  - apply Forall_cons in H2 as [[_ Hb] _]. symmetry in Heq.
    by apply Join_cons_nonempty in Heq.
  - apply Forall_cons in H1 as [[_ Ha] _]. by apply Join_cons_nonempty in Heq.
  - rewrite <- (Split_Join sep (a :: r1)), <- (Split_Join sep (b :: r2)).
    + by rewrite Heq.
    + done.
    + eapply Forall_impl; [exact H2|]. by intros t [? _].
    + done.
    + eapply Forall_impl; [exact H1|]. by intros t [? _].
Qed.

Lemma Itoa_inj a b :
  0 <= a <= maxInt -> 0 <= b <= maxInt -> Itoa a = Itoa b -> a = b.
Proof.
  intros Ha Hb Heq. apply (f_equal Atoi) in Heq.
  rewrite !Atoi_Itoa in Heq by done. by inversion Heq.
Qed.

Lemma setting_token_inj s1 s2 :
  wf_Setting s1 -> wf_Setting s2 -> setting_token s1 = setting_token s2 -> s1 = s2.
Proof.
  intros [Hi1 Hv1] [Hi2 Hv2] Heq. apply (f_equal (fun t => Split t ":")) in Heq.
  rewrite !Split_setting_token in Heq. inversion Heq as [[Hid Hval]].
  unfold is_uint16, is_uint32 in *.
  apply Itoa_inj in Hid; [|unfold maxInt; lia..].
  apply Itoa_inj in Hval; [|unfold maxInt; lia..].
  destruct s1, s2; simpl in *; by subst.
Qed.

Lemma setting_tokens_inj ss1 : forall ss2,
  Forall wf_Setting ss1 -> Forall wf_Setting ss2 ->
  map setting_token ss1 = map setting_token ss2 -> ss1 = ss2.
Proof.
  induction ss1 as [|s1 ss1 IH]; intros [|s2 ss2] H1 H2 Heq; try done.
  apply Forall_cons in H1 as [Hs1 H1]. apply Forall_cons in H2 as [Hs2 H2].
  inversion Heq as [[Hs Hrest]].
  f_equal; [by apply setting_token_inj|by apply IH].
Qed.

Lemma setting_token_nonempty s : setting_token s <> "".
Proof.
  unfold setting_token. pose proof (Itoa_nonempty (Id s)) as H.
  by destruct (Itoa (Id s)).
Qed.

Lemma letters_of_pseudo (ToLower : string -> string) hs :
  omap (fun h => head_letter (ToLower h)) hs
  = omap head_letter (pseudo_headers ToLower hs).
Proof.
  unfold pseudo_headers. induction hs as [|h hs IH]; [done|].
  rewrite (omap_cons_match (pseudo_name ToLower)), pseudo_name_head.
  rewrite (omap_cons_match (fun h => head_letter (ToLower h))).
  destruct (head_letter (ToLower h)) as [l|] eqn:E; [|exact IH].
  by rewrite omap_cons_match, E, IH.
Qed.

Lemma letters_nonempty (ToLower : string -> string) hs sep :
  sep = ","%char \/ sep = "|"%char ->
  Forall (fun t => bytes_all (differs sep) t = true /\ t <> "")
         (omap (fun h => head_letter (ToLower h)) hs).
Proof.
  intros Hsep. induction hs as [|h hs IH]; simpl; [constructor|].
  destruct (head_letter (ToLower h)) as [l|] eqn:E; simpl; [|done].
  constructor; [|done].
  apply head_letter_cases in E as [[_ ->]|[[_ ->]|[[_ ->]|[_ ->]]]];
    destruct Hsep as [->| ->]; by split.
Qed.

(** X15.  The fingerprint determines exactly the settings, the flow and the
    order of the pseudo-headers: two specs (fields within their Go types)
    have the same fingerprint if and only if they agree on these three; the
    other header names, their spelling and the priority play no part. *)
Theorem Fp_injective :
  forall (ToLower : string -> string) (p q : H2Spec),
    wf_H2Spec p -> wf_H2Spec q ->
    (Fp ToLower p = Fp ToLower q
     <-> InitialSetting p = InitialSetting q
         /\ ConnFlow p = ConnFlow q
         /\ pseudo_headers ToLower (OrderHeaders p) = pseudo_headers ToLower (OrderHeaders q)).
Proof.
  intros ToLower p q [Hps Hpf] [Hqs Hqf]. split.
  - intros Heq. apply (f_equal (fun s => Split s "|")) in Heq.
    rewrite !Split_Fp in Heq. inversion Heq as [[Hset Hflow Hheads]].
    split; [|split].
    + apply setting_tokens_inj; [done..|].
      apply (Join_inj ","); [| |done].
      all: apply Forall_map, Forall_forall; intros s _.
      all: split; [by apply setting_token_differs|apply setting_token_nonempty].
    + unfold is_uint32 in *. apply Itoa_inj; [unfold maxInt; lia..|done].
    + rewrite !Fp_heads_omap in Hheads. simpl in Hheads.
      apply (Join_inj ",") in Hheads; [|apply letters_nonempty; by left..].
      by rewrite <- !decode_letters, Hheads.
  - intros (Hset & Hflow & Hheads). unfold Fp.
    rewrite Hset, Hflow, !Fp_heads_omap.
    rewrite (letters_of_pseudo ToLower (OrderHeaders p)).
    rewrite (letters_of_pseudo ToLower (OrderHeaders q)).
    by rewrite Hheads.
Qed.

Lemma Fp_injective_witness :
  Fp ToLowerASCII (DefaultH2Spec [":Method"; "Host"; ":authority"; ":scheme"; ":path"])
  = Fp ToLowerASCII
      {| InitialSetting := InitialSetting (DefaultH2Spec []);
         ConnFlow := 15663105;
         OrderHeaders := [":method"; ":AUTHORITY"; "accept"; ":scheme"; ":path"; "Cookie"];
         Priority_ := Priority_zero |}.
Proof.
  apply (Fp_injective ToLowerASCII).
  - split; [|vm_compute; split; congruence].
    repeat constructor; vm_compute; congruence.
  - split; [|vm_compute; split; congruence].
    repeat constructor; vm_compute; congruence.
  - repeat split.
Defined.

(** X16.  A fingerprint always has exactly four fields, so decoding one
    never gives the format error; the fingerprint of a spec without
    settings, whatever its flow and headers, is answered with the setting
    error. *)
Theorem Fp_four_fields :
  forall (ToLower : string -> string) (p : H2Spec),
    length (Split (Fp ToLower p) "|") = 4%nat
    /\ CreateH2SpecWithStr (Fp ToLower p) <> Err ErrSpecFormat
    /\ (InitialSetting p = [] -> CreateH2SpecWithStr (Fp ToLower p) = Err ErrSetting).
Proof.
  intros ToLower p. split; [by rewrite Split_Fp|]. split.
  - unfold CreateH2SpecWithStr. rewrite Split_Fp.
    pose proof (parse_settings_error
                  (Split (Join (map setting_token (InitialSetting p)) ",") ",") []) as Hs.
    destruct (parse_settings _ []) as [settings|e]; [|congruence].
    by destruct (Atoi (Itoa (ConnFlow p))).
  - intros Hnone. unfold CreateH2SpecWithStr. rewrite Split_Fp, Hnone. done.
Qed.

(** ** Concurrent callers for a destination that has a record *)

Section ExistingDestination.
Variable key : string.
Variable p : nat.
Variable s0 : shared.
Variable values : list Z.
Hypothesis Hkey : sh_map s0 !! key = Some p.
Hypothesis Hp : (p < length (sh_records s0))%nat.

Lemma memory_at s :
  sh_map s = sh_map s0 -> memory s key = default ∅ (sh_records s !! p).
Proof. intros Hmap. unfold memory. by rewrite Hmap, Hkey. Qed.

Lemma existing_init ts :
  values = map t_value ts ->
  Forall (in_flight_on key p) ts ->
  existing_inv key p s0 values (ts, s0).
Proof.
  intros -> Hts. unfold existing_inv. simpl.
  split; [done|]. split; [done|]. split; [done|]. split; [done|].
  split; [set_solver|]. split; [by rewrite length_map|].
  intros j t Hj. rewrite Forall_lookup in Hts. destruct (Hts j t Hj) as [Hk Hpc].
  split; [done|]. split; [by rewrite list_lookup_fmap, Hj|]. tauto.
Qed.

Lemma existing_step cfg i :
  existing_inv key p s0 values cfg -> existing_inv key p s0 values (sched_step cfg i).
Proof.
  destruct cfg as [ts s]. intros Hinv.
  pose proof Hinv as (Hmap & Hlen & Hframe & Hlow & Hup & Hn & Hts).
  simpl in Hmap, Hlen, Hframe, Hlow, Hup, Hn, Hts.
  unfold sched_step. simpl fst. simpl snd.
  destruct (ts !! i) as [t|] eqn:Hi; [|exact Hinv].
  destruct (Hts i t Hi) as (Htk & Hval & Hpc).
  assert (Hi' : (i < length ts)%nat) by (by eapply lookup_lt_Some).
  assert (Hother : forall t' j u, <[i := t']> ts !! j = Some u ->
            (j = i /\ u = t') \/ (j <> i /\ ts !! j = Some u)).
  { intros t' j u Hj. destruct (decide (j = i)) as [->|Hne].
    - rewrite list_lookup_insert_eq in Hj by done. left. by inversion Hj.
    - rewrite list_lookup_insert_ne in Hj by done. by right. }
  (* an action that leaves the shared state alone *)
  assert (Hquiet : forall t',
            t_key t' = key -> t_value t' = t_value t ->
            (t_pc t' = AtLoad \/ t_pc t' = AtHas p \/ t_pc t' = AtAdd p
             \/ exists c, t_pc t' = Returned c /\ t_value t' ∈ memory s key) ->
            existing_inv key p s0 values (<[i := t']> ts, s)).
  { intros t' Hk' Hv' Hpc'. unfold existing_inv. simpl.
    split; [done|]. split; [done|]. split; [done|]. split; [done|].
    split; [done|]. split; [by rewrite length_insert|].
    intros j u Hj. apply Hother in Hj as [[-> ->]|[Hne Hj]]; [|exact (Hts j u Hj)].
    split; [done|]. split; [by rewrite Hv'|done]. }
  unfold step.
  destruct Hpc as [Hpc|[Hpc|[Hpc|(c & Hpc & Hin)]]]; rewrite Hpc.
  - (* Load: the key is there *)
    rewrite Htk, Hmap, Hkey. apply Hquiet; simpl; [done|done|]. right. by left.
  - (* Has *)
    rewrite <- (memory_at s Hmap).
    case_bool_decide as Hhas; apply Hquiet; simpl; try done.
    + right. right. right. by exists false.
    + right. right. by left.
  - (* Add *)
    assert (Hrec : exists M, sh_records s !! p = Some M).
    { apply lookup_lt_is_Some. by rewrite Hlen. }
    destruct Hrec as [M HM].
    assert (Hmem : memory s key = M) by (by rewrite (memory_at s Hmap), HM).
    assert (Hmem' : memory (Shared (sh_map s)
                      (alter (fun M => {[t_value t]} ∪ M) p (sh_records s))) key
                    = {[t_value t]} ∪ M).
    { rewrite memory_at by done. simpl.
      by rewrite list_lookup_alter, decide_True, HM by done. }
    unfold existing_inv. simpl fst. simpl snd. rewrite Hmem'.
    cbn [sh_map sh_records]. rewrite Hmem in Hlow, Hup.
    split; [done|]. split; [by rewrite length_alter|].
    split.
    { intros q Hq. rewrite list_lookup_alter_ne by done. by apply Hframe. }
    split; [set_solver|]. split.
    { apply list_elem_of_lookup_2 in Hval. set_solver. }
    split; [by rewrite length_insert|].
    intros j u Hj. apply Hother in Hj as [[-> ->]|[Hne Hj]].
    + simpl. split; [done|]. split; [done|].
      right. right. right. exists true. split; [done|]. set_solver.
    + destruct (Hts j u Hj) as (? & ? & Hpcu). split; [done|]. split; [done|].
      destruct Hpcu as [?|[?|[?|(c & ? & Hc)]]]; [tauto..|].
      right. right. right. exists c. split; [done|]. rewrite Hmem in Hc. set_solver.
  - (* already returned *)
    rewrite list_insert_id by done. exact Hinv.
Qed.

Lemma existing_run schedule : forall cfg,
  existing_inv key p s0 values cfg -> existing_inv key p s0 values (run schedule cfg).
Proof.
  induction schedule as [|i schedule IH]; intros cfg Hinv; [done|].
  simpl. by apply IH, existing_step.
Qed.
End ExistingDestination.

(** A caller that missed on [Load] before the record existed and stores
    afterwards replaces the record: callers 1 and 2 have recorded groups 25
    and 26 when caller 0, which Loaded first, stores its record, and the
    destination's memory is left with group 24 alone. *)
Example stale_store_replaces_record :
  let callers := [start "example.com" 24; start "example.com" 25; start "example.com" 26] in
  let before := run [0; 1; 1; 2; 2; 2]%nat (callers, empty_client) in
  let after := run [0; 1; 1; 2; 2; 2; 0]%nat (callers, empty_client) in
  memory (snd before) "example.com" = {[ 25; 26 ]}
  /\ t_pc <$> fst before !! 0%nat = Some AtStore
  /\ memory (snd after) "example.com" = {[ 24 ]}.
Proof. repeat split; vm_compute; reflexivity. Qed.

(** X19.  Let a destination have its record, and let every caller reporting
    for it be at its [Load] or have Loaded that record (at [Has] or [Add]);
    no caller is between a [Load] that missed and its [Store].  Then no
    report is lost: whatever the interleaving of the callers' actions, when
    all have returned the record holds what it held before together with
    every reported group; no record is created, the map is unchanged and the
    other records are untouched.  The condition on the callers is needed,
    as [stale_store_replaces_record] shows. *)
Theorem existing_destination_keeps_all_reports :
  forall key p s0 ts schedule,
    sh_map s0 !! key = Some p ->
    (p < length (sh_records s0))%nat ->
    Forall (in_flight_on key p) ts ->
    let final := run schedule (ts, s0) in
    Forall (fun t => is_Some (returned t)) (fst final) ->
    memory (snd final) key = memory s0 key ∪ list_to_set (map t_value ts)
    /\ sh_map (snd final) = sh_map s0
    /\ length (sh_records (snd final)) = length (sh_records s0)
    /\ (forall q, q <> p -> sh_records (snd final) !! q = sh_records s0 !! q).
Proof.
  intros key p s0 ts schedule Hkey Hp Hflight final Hdone.
  assert (Hinit : existing_inv key p s0 (map t_value ts) (ts, s0))
    by (by apply existing_init).
  pose proof (existing_run key p s0 (map t_value ts) Hkey Hp schedule _ Hinit) as Hinv.
  fold final in Hinv.
  destruct Hinv as (Hmap & Hlen & Hframe & Hlow & Hup & Hn & Hts).
  split; [|done].
  apply set_eq. intros g. split; [by apply Hup|].
  intros Hg. apply elem_of_union in Hg as [Hg|Hg]; [by apply Hlow|].
  apply elem_of_list_to_set, list_elem_of_lookup_1 in Hg as [j Hj].
  destruct (fst final !! j) as [t|] eqn:Ht.
  2:{ apply lookup_ge_None in Ht. apply lookup_lt_Some in Hj. lia. }
  destruct (Hts j t Ht) as (_ & Hval & Hpc).
  rewrite Forall_lookup in Hdone. destruct (Hdone j t Ht) as [c Hc].
  unfold returned in Hc. rewrite Hj in Hval. inversion Hval; subst g.
  destruct Hpc as [Hpc|[Hpc|[Hpc|(c' & _ & Hin)]]]; [by rewrite Hpc in Hc..|done].
Qed.

Lemma existing_destination_keeps_all_reports_witness :
  let s0 := Shared {[ "example.com" := 0%nat ]} [ {[ 23 ]} ] in
  let ts := [start "example.com" 24; Thread "example.com" 25 (AtHas 0)] in
  let final := run [0; 1; 0; 1; 0]%nat (ts, s0) in
  memory (snd final) "example.com" = {[ 23 ]} ∪ list_to_set [24; 25].
Proof.
  intros s0 ts final.
  refine (proj1 (existing_destination_keeps_all_reports "example.com" 0 s0 ts
                   [0; 1; 0; 1; 0]%nat _ _ _ _)).
  - reflexivity.
  - simpl. lia.
  - repeat constructor; simpl; tauto.
  - vm_compute. repeat constructor; by eexists.
Defined.

(** X20, witness.  Two callers report group 23 for a new destination and
    race through creation; the destination's memory is {23} all the same. *)
Lemma same_group_final_memory_witness :
  memory (snd (run [0; 1; 0; 1]%nat
                 (replicate 2 (start "example.com" 23), empty_client))) "example.com"
  = {[ 23 ]}.
Proof.
  apply (same_group_final_memory "example.com" 23 2 [0; 1; 0; 1]%nat).
  - discriminate.
  - vm_compute. repeat constructor; by eexists.
Defined.

(** ** Outcomes of the spec builder *)

Lemma omap_lookup_seq {A} (h objs : list A) :
  omap (fun ext => (h ++ objs)%list !! ext) (seq (length h) (length objs)) = objs.
Proof.
  revert h. induction objs as [|o objs IH]; intros h; [done|].
  simpl. rewrite lookup_app_r by lia. rewrite Nat.sub_diag. simpl. f_equal.
  specialize (IH (h ++ [o])%list). rewrite length_app in IH. simpl in IH.
  rewrite <- app_assoc in IH. simpl in IH.
  by rewrite Nat.add_1_r in IH.
Qed.

(** X17.  For a raw or hex capture, and for an argument of an unsupported
    type, the builder either returns an error together with the zero spec
    and leaves the store alone, or it returns no error and a spec that has
    the cipher suites and compression methods the parser found and one
    extension object per parsed extension, in order, each the parsed
    extension's [utlsExt]; the objects that were in the store stay as they
    were.  The parser sees the capture's bytes, for a hex capture the
    decoded ones. *)
Theorem CreateSpecWithClientHello_outcomes :
  forall ClientHelloID Extension decodeClientHello utlsExt UTLSIdToSpec Sum256
         clienthello h,
    (forall id, clienthello <> Builder.ArgClientHelloID ClientHelloID id) ->
    let '(spec, err, h') :=
      Builder.CreateSpecWithClientHello ClientHelloID Extension
        decodeClientHello utlsExt UTLSIdToSpec Sum256 clienthello h in
    match err with
    | Some _ => spec = ClientHelloSpec_zero /\ h' = h
    | None =>
        exists capture info,
          (clienthello = Builder.ArgBytes ClientHelloID capture
           \/ exists value, clienthello = Builder.ArgString ClientHelloID value
                            /\ hex_DecodeString value = inl capture)
          /\ decodeClientHello capture = (info, None)
          /\ CipherSuites spec = Builder.ch_CipherSuites Extension info
          /\ CompressionMethods spec = Builder.ch_CompressionMethods Extension info
          /\ omap (fun ext => h' !! ext) (Extensions spec)
             = map utlsExt (Builder.ch_Extensions Extension info)
          /\ take (length h) h' = h
    end.
Proof.
  intros ClientHelloID Extension decodeClientHello utlsExt UTLSIdToSpec Sum256
    clienthello h Hkind.
  assert (Hspec : forall capture info,
            decodeClientHello capture = (info, None) ->
            (clienthello = Builder.ArgBytes ClientHelloID capture
             \/ exists value, clienthello = Builder.ArgString ClientHelloID value
                              /\ hex_DecodeString value = inl capture) ->
            let '(spec, err, h') := Builder.spec_of_ClientHello Extension utlsExt Sum256 info h in
            match err with
            | Some _ => spec = ClientHelloSpec_zero /\ h' = h
            | None =>
                exists capture info,
                  (clienthello = Builder.ArgBytes ClientHelloID capture
                   \/ exists value, clienthello = Builder.ArgString ClientHelloID value
                                    /\ hex_DecodeString value = inl capture)
                  /\ decodeClientHello capture = (info, None)
                  /\ CipherSuites spec = Builder.ch_CipherSuites Extension info
                  /\ CompressionMethods spec = Builder.ch_CompressionMethods Extension info
                  /\ omap (fun ext => h' !! ext) (Extensions spec)
                     = map utlsExt (Builder.ch_Extensions Extension info)
                  /\ take (length h) h' = h
            end).
  { intros capture info Hdec Hfrom. unfold Builder.spec_of_ClientHello.
    exists capture, info. split; [done|]. split; [done|]. split; [done|].
    split; [done|]. cbn [Extensions]. split; [apply omap_lookup_seq|].
    by rewrite take_app_length. }
  destruct clienthello as [value|id|value|]; simpl.
  - destruct (decodeClientHello value) as [info [e|]] eqn:Hdec; [done|].
    apply (Hspec value info Hdec). by left.
  - by destruct (Hkind id).
  - destruct (hex_DecodeString value) as [v|e] eqn:Hhex; [|done].
    destruct (decodeClientHello v) as [info [e|]] eqn:Hdec; [done|].
    apply (Hspec v info Hdec). right. by exists value.
  - done.
Qed.

Lemma CreateSpecWithClientHello_outcomes_witness :
  Builder.CreateSpecWithClientHello nat nat MoreExamples.refusing_parser
    Examples.opaque_ext Examples.preset_without_hash Examples.some_hash
    (Builder.ArgString nat "160301") Examples.template_store
  = (ClientHelloSpec_zero, Some (Builder.ErrDecode "short read"), Examples.template_store).
Proof.
  pose proof (CreateSpecWithClientHello_outcomes nat nat MoreExamples.refusing_parser
                Examples.opaque_ext Examples.preset_without_hash Examples.some_hash
                (Builder.ArgString nat "160301") Examples.template_store) as H.
  destruct (Builder.CreateSpecWithClientHello _ _ _ _ _ _ _ _) as [[spec err] h'] eqn:E.
  assert (Herr : err = Some (Builder.ErrDecode "short read")).
  { apply (f_equal (fun r => snd (fst r))) in E. simpl in E. by rewrite <- E. }
  rewrite Herr in *. destruct H as [-> ->]; [discriminate|reflexivity].
Defined.

(** ** QUIC presets *)

(** X18.  [CreateUSpec] treats [true] as the Firefox 116 preset and a
    [USpec] as its identifier: they fail exactly when the table lookup of
    the identifier fails, with the table's error, and on success return the
    table's entry, and a failing [USpec] returns the zero spec.  [false]
    succeeds with the zero spec.  The error for an unsupported type is
    returned for an argument of another type and for nothing else. *)
Theorem CreateUSpec_cases :
  forall QUICID QUICSpec (zero : QUICSpec) QUICID2Spec (QUICFirefox_116 : QUICID),
    let create := Quic.CreateUSpec QUICID QUICSpec zero QUICID2Spec QUICFirefox_116 in
    create (Quic.ArgBool QUICID true) = create (Quic.ArgQUICID QUICID QUICFirefox_116)
    /\ create (Quic.ArgBool QUICID false) = (zero, None)
    /\ (forall id,
          snd (create (Quic.ArgUSpec QUICID {| Quic.USpec_QUICID := id |}))
            = snd (create (Quic.ArgQUICID QUICID id))
          /\ create (Quic.ArgUSpec QUICID {| Quic.USpec_QUICID := id |})
             = match snd (QUICID2Spec id) with
               | Some err => (zero, Some (Quic.ErrQUICID err))
               | None => (fst (QUICID2Spec id), None)
               end)
    /\ (forall value err,
          snd (create value) = Some err ->
          (err = Quic.ErrUnsupported <-> value = Quic.ArgOther QUICID)).
Proof.
  intros QUICID QUICSpec zero QUICID2Spec QUICFirefox_116 create.
  unfold create, Quic.CreateUSpec, Quic.Spec. simpl.
  split; [done|]. split; [done|]. split.
  - intros id. by destruct (QUICID2Spec id) as [spec [e|]].
  - intros value err. destruct value as [[|]|id|[id]|]; simpl.
    + destruct (QUICID2Spec QUICFirefox_116) as [spec [e|]]; simpl; [|done].
      intros [= <-]. by split.
    + done.
    + destruct (QUICID2Spec id) as [spec [e|]]; simpl; [|done].
      intros [= <-]. by split.
    + destruct (QUICID2Spec id) as [spec [e|]]; simpl; [|done].
      intros [= <-]. by split.
    + intros [= <-]. by split.
Qed.

(** ** A retry after a newly rejected group *)

Lemma Client_unfold_create {Engine} ApplyPreset HandshakeContext NextProtoH3
    fuel ja3Spec h2 serverName (w : @world Engine) :
  Client ApplyPreset HandshakeContext NextProtoH3 fuel ja3Spec h2 serverName w =
    match Client_loop ApplyPreset fuel serverName ja3Spec ja3Spec
            (World (w_registry w)
               (prepared_store NextProtoH3 (w_registry w) ja3Spec h2 serverName (w_store w))
               (w_engine w) (w_attempts w)) with
    | None => None
    | Some (Return err, w') => Some (None, Some err, w')
    | Some (Break, w') =>
        let '(eng, err) := HandshakeContext (w_engine w') in
        Some (Some eng, err, World (w_registry w') (w_store w') eng (w_attempts w'))
    end.
Proof.
  unfold Client, prepared_store.
  destruct (createSpecWithSpec NextProtoH3 ja3Spec h2 false (w_store w))
    as [[utlsSpec err0] h0] eqn:Hcreate.
  assert (utlsSpec = ja3Spec /\ err0 = None) as [-> ->].
  { unfold createSpecWithSpec in Hcreate. simpl in Hcreate.
    destruct (negb h2); by inversion Hcreate. }
  cbn [snd]. by destruct (changeSpec (w_registry w) serverName ja3Spec h0) as [c h1].
Qed.

(** X21.  When the engine rejects the first preset for a group that the
    destination's memory does not hold yet, [Client] records the group and
    prunes the template with the enlarged memory.  If no key share or
    curve is left it returns the engine's error with a nil connection
    after that one attempt.  Otherwise it applies a preset again, on the
    pruned template; if the engine accepts that one, [Client] performs the
    handshake and returns the connection, after two attempts. *)
Theorem Client_new_rejection :
  forall Engine ApplyPreset HandshakeContext NextProtoH3 fuel ja3Spec h2 serverName
         (w : @world Engine) eng1 uspec1 h1 err g,
    ApplyPreset (w_engine w) ja3Spec
      (prepared_store NextProtoH3 (w_registry w) ja3Spec h2 serverName (w_store w))
      = (eng1, uspec1, h1, Some err) ->
    classify err = Some g ->
    g ∉ rejected (w_registry w) serverName ->
    let reg1 := snd (setSpecErrWithKeyShareExtension (w_registry w) serverName g) in
    let pruned := changeSpec reg1 serverName ja3Spec h1 in
    rejected reg1 serverName = {[g]} ∪ rejected (w_registry w) serverName
    /\ (fst pruned = false ->
        Client ApplyPreset HandshakeContext NextProtoH3 (S fuel) ja3Spec h2 serverName w
          = Some (None, Some err, World reg1 (snd pruned) eng1 (S (w_attempts w))))
    /\ (fst pruned = true ->
        forall eng2 uspec2 h2',
          ApplyPreset eng1 uspec1 (snd pruned) = (eng2, uspec2, h2', None) ->
          Client ApplyPreset HandshakeContext NextProtoH3 (S (S fuel)) ja3Spec h2 serverName w
            = Some (Some (fst (HandshakeContext eng2)), snd (HandshakeContext eng2),
                    World reg1 h2' (fst (HandshakeContext eng2)) (S (S (w_attempts w))))).
Proof.
  intros Engine ApplyPreset HandshakeContext NextProtoH3 fuel ja3Spec h2 serverName
    w eng1 uspec1 h1 err g Happly Hg Hnew reg1 pruned.
  assert (Hrec : setSpecErrWithError (w_registry w) serverName err = (true, reg1)).
  { rewrite record_error_classify, Hg. unfold reg1.
    pose proof (record_change (w_registry w) serverName g) as Hc.
    rewrite bool_decide_true in Hc by done.
    by destruct (setSpecErrWithKeyShareExtension (w_registry w) serverName g) as [c r];
      simpl in *; subst. }
  split; [|split].
  - unfold reg1. rewrite record_rejected. by rewrite decide_True.
  - intros Hnone. rewrite Client_unfold_create.
    cbn [Client_loop w_engine w_store w_registry w_attempts].
    rewrite Happly, Hrec. cbn [negb]. fold pruned.
    destruct pruned as [c2 h1']. simpl in Hnone. subst c2. done.
  - intros Hsome eng2 uspec2 h2' Happly2. rewrite Client_unfold_create.
    cbn [Client_loop w_engine w_store w_registry w_attempts].
    rewrite Happly, Hrec. cbn [negb]. fold pruned.
    destruct pruned as [c2 h1']. simpl in Hsome, Happly2. subst c2.
    cbn [negb w_engine w_store w_registry w_attempts]. rewrite Happly2.
    cbn [w_engine w_store w_registry w_attempts].
    by destruct (HandshakeContext eng2).
Qed.

Lemma Client_new_rejection_witness :
  Client MoreExamples.refusing_once MoreExamples.handshake_ok "h3" 2
    Examples.template true "example.com" (World NewClient Examples.template_store 0%nat 0)
  = Some (Some 2%nat, None,
          World Examples.registry_24
            (snd (changeSpec Examples.registry_24 "example.com" Examples.template
                    Examples.template_store)) 2%nat 2).
Proof.
  destruct (Client_new_rejection nat MoreExamples.refusing_once MoreExamples.handshake_ok
              "h3" 0 Examples.template true "example.com"
              (World NewClient Examples.template_store 0%nat 0)
              1%nat Examples.template Examples.template_store
              Examples.curve_error_24 24) as (_ & _ & Hretry).
  - reflexivity.
  - reflexivity.
  - unfold rejected, NewClient. cbn [w_registry]. rewrite lookup_empty. set_solver.
  - refine (Hretry _ 2%nat Examples.template _ _); [vm_compute; reflexivity|reflexivity].
Defined.
